(** * memestra: deprecated-use detection, shallow embedding of
      [memestra/memestra.py]

    The Python module is embedded function by function.  Syntax-tree nodes
    are Python objects, compared and hashed by identity, so a node is
    modelled by its identity and the tree is a store from identities to
    fields.  The def-use chains and the ancestor table are computed by
    beniget and are inputs of the embedding.  Exceptions are explicit
    outcomes, and the state shared between resolvers ([cache], [visited])
    is threaded through every call. *)

From Stdlib Require Import Ascii.
From stdpp Require Import base option list strings gmap sorting pretty.

Open Scope string_scope.
Open Scope list_scope.

(** ** Python strings and tuples of strings *)

(** [s.split('.')] *)
Fixpoint split_dot (s : string) : list string :=
  match s with
  | EmptyString => [EmptyString]
  | String c s' =>
      if Ascii.eqb c "."%char then EmptyString :: split_dot s'
      else match split_dot s' with
           | [] => [String c EmptyString]
           | w :: ws => String c w :: ws
           end
  end.

(** ['.'.join(l)] *)
Fixpoint join_dot (l : list string) : string :=
  match l with
  | [] => ""
  | [x] => x
  | x :: rest => x +:+ "." +:+ join_dot rest
  end.

(** The slices [t[-1:]] and [t[:-1]] of a tuple. *)
Definition last_slice {A} (t : list A) : list A := drop (length t - 1) t.
Definition but_last_slice {A} (t : list A) : list A := take (length t - 1) t.

(** [l.index(x)], [None] standing for [ValueError]. *)
Fixpoint index_of (x : string) (l : list string) : option nat :=
  match l with
  | [] => None
  | y :: l' => if decide (y = x) then Some 0 else S <$> index_of x l'
  end.

(** ** Syntax trees *)

(** A node object, identified by its identity. *)
Definition node := positive.

(** The node classes the analysis tests for, with the fields it reads.
    Every other class is [Other]. *)
Inductive node_kind :=
| Module
| FunctionDef (name : string)
| AsyncFunctionDef (name : string)
| ClassDef (name : string)
| Attribute (value : node) (attr : string)
| Name (id : string)
| alias (name : string)
| Import (names : list node)
| ImportFrom (module : option string) (names : list node)
| Other.

(** [isinstance(n, _defs)] with
    [_defs = ast.AsyncFunctionDef, ast.ClassDef, ast.FunctionDef] *)
Definition is_defs (k : node_kind) : bool :=
  match k with
  | AsyncFunctionDef _ | ClassDef _ | FunctionDef _ => true
  | _ => false
  end.

(** A parsed module together with the two beniget analyses of it:
    [locals] is [duc.locals[module]] (each [Def] identified by its node),
    [users n] is [[u.node for u in duc.chains[n].users()]], and
    [parents n] is [ancestors.parents(n)], the root first. [preorder] lists
    the nodes in the order [NodeVisitor.generic_visit] reaches them. *)
Record module_ast := {
  kind : node → node_kind;
  lineno : node → Z;
  col_offset : node → Z;
  preorder : list node;
  locals : list node;
  users : node → list node;
  parents : node → list node
}.

(** ** Exceptions *)

Inductive exn :=
| IndexError
| AttributeError
| SyntaxError
| UnicodeDecodeError
| OSError
| AssertionError.

Inductive result (A : Type) :=
| Ok (a : A)
| Err (e : exn).
Arguments Ok {A} a.
Arguments Err {A} e.

Definition rbind {A B} (r : result A) (f : A → result B) : result B :=
  match r with
  | Ok a => f a
  | Err e => Err e
  end.

(** [l[-1]] *)
Definition last_item {A} (l : list A) : result A :=
  match last l with
  | Some x => Ok x
  | None => Err IndexError
  end.

(** [d.name] *)
Definition name_of (k : node_kind) : result string :=
  match k with
  | FunctionDef n | AsyncFunctionDef n | ClassDef n | alias n => Ok n
  | _ => Err AttributeError
  end.

(** ** The decorator matcher: [ImportResolver.collect_deprecated] *)

Section Matcher.
Variable decorator : list string.
Variable m : module_ast.

(** The [while attrs and parents] loop.  Both Python lists are used as
    stacks popped at their end: [attrs] is
    [list(reversed(decorator[nbterms:]))], kept here in decorator order
    with the top of the stack first, and [up] is [parents] with the
    innermost ancestor first.  The result is the two stacks when the
    loop exits; a [break] happens after [parents.pop()] and before
    [attrs.pop()]. *)
Fixpoint walk_attrs (attrs : list string) (up : list node)
  : list string * list node :=
  match attrs, up with
  | attr :: attrs', parent :: up' =>
      match kind m parent with
      | Attribute _ a =>
          if decide (a = attr) then walk_attrs attrs' up' else (attrs, up')
      | _ => (attrs, up')
      end
  | _, _ => (attrs, up)
  end.

(** Body of [for user in dlocal.users()] in the first branch: the node
    this use adds to [deprecated], if any. *)
Definition prefix_target (nbterms : nat) (user : node)
  : result (option node) :=
  let '(attrs, up) :=
    walk_attrs (drop nbterms decorator) (reverse (parents m user)) in
  match attrs with
  | _ :: _ => Ok None
  | [] =>
      match up with
      | [] => Err IndexError
      | top :: _ => if is_defs (kind m top) then Ok (Some top) else Ok None
      end
  end.

(** Body of [for user in dlocal.users()] in the second branch. *)
Definition final_target (user : node) : result (option node) :=
  rbind (last_item (parents m user)) (λ parent,
    if is_defs (kind m parent) then Ok (Some parent) else Ok None).

(** A [for user in ...] loop that adds each target to [deprecated]. *)
Fixpoint add_targets (target : node → result (option node))
    (us : list node) (deprecated : gset node) : result (gset node) :=
  match us with
  | [] => Ok deprecated
  | u :: us' =>
      rbind (target u) (λ t,
        add_targets target us'
          (match t with
           | Some p => {[p]} ∪ deprecated
           | None => deprecated
           end))
  end.

(** Body of [for dlocal in duc.locals[node]]. *)
Definition collect_local (dlocal : node) (deprecated : gset node)
  : result (gset node) :=
  match kind m dlocal with
  | alias name =>
      let original_path := split_dot name in
      let nbterms := length original_path in
      if decide (original_path = take nbterms decorator) then
        add_targets (prefix_target nbterms) (users m dlocal) deprecated
      else if decide (original_path = last_slice decorator) then
        rbind (last_item (parents m dlocal)) (λ parent,
          match kind m parent with
          | ImportFrom module _ =>
              if decide (module = Some (join_dot (but_last_slice decorator)))
              then add_targets final_target (users m dlocal) deprecated
              else Ok deprecated
          | _ => Ok deprecated
          end)
      else Ok deprecated
  | _ => Ok deprecated
  end.

Fixpoint collect_locals (ls : list node) (deprecated : gset node)
  : result (gset node) :=
  match ls with
  | [] => Ok deprecated
  | dlocal :: ls' =>
      rbind (collect_local dlocal deprecated) (collect_locals ls')
  end.

Definition collect_deprecated : result (gset node) :=
  collect_locals (locals m) ∅.
End Matcher.

(** ** The use-site propagator: [ImportResolver.get_deprecated_users] *)

Section Propagator.
Variable m : module_ast.
Variable deprecated : gset node.

(** [[n for n in ancestors.parents(user.node) if isinstance(n, _defs)]] *)
Definition user_ancestors (user : node) : list node :=
  filter (λ n, is_defs (kind m n)) (parents m user).

(** Body of the inner loop: the triples appended for one user. *)
Definition deprecated_use (deprecated_node user : node)
  : list (node * node * node) :=
  if decide (Exists (λ f, f ∈ deprecated) (user_ancestors user)) then []
  else [(deprecated_node, user, default user (last (user_ancestors user)))].

Definition get_deprecated_users : list (node * node * node) :=
  flat_map (λ deprecated_node,
              flat_map (deprecated_use deprecated_node)
                       (users m deprecated_node))
           (elements deprecated).
End Propagator.

(** ** Collaborators and session state *)

Inductive source :=
| Undecodable            (* [fd.read()] raises [UnicodeDecodeError] *)
| Malformed              (* [ast.parse] raises [SyntaxError] *)
| Parsed (m : module_ast).

(** A cache key carries the module path and a hash of its contents. *)
Abbreviation cache_key := (string * string)%type.
Definition module_hash (k : cache_key) : string := k.2.

(** What [memestra.caching] and [memestra.utils] provide and the file
    system holds.  They are parameters of the embedding.  [resolve_module]
    is given the module name and the path of the importing file; its
    answer for the name [None] of a relative import [from . import x] is
    part of the parameter and no statement relies on it. *)
Record collaborators := {
  Format_version : Z;
  resolve_module : option string → option string → option string;
  CacheKeyFactory : string → cache_key;
  RecursiveCacheKeyFactory : string → cache_key;
  files : gmap string source;
  repr : node → string
}.

Record entry := {
  version : Z;
  generator : string;
  deprecated : list string
}.

(** Modelled from the spec: the class [Cache] of [memestra.caching], which
    is not in this file.  The store answers [get(key) -> Entry | absent]
    and [put(key, entry)]; an entry is persisted "with the current format
    version".  It outlives a run. *)
Definition cache_put (current : Z) (key : cache_key)
    (gen : string) (names : list string)
    (c : gmap cache_key entry) : gmap cache_key entry :=
  <[key := {| version := current; generator := gen; deprecated := names |}]> c.

(** The state every resolver of one run shares, with the warnings emitted
    and the module files that [load_deprecated_from_module] has opened so
    far. *)
Record session := {
  cache : gmap cache_key entry;
  visited : gset string;
  warnings : list string;
  opened : list string
}.

Inductive outcome (A : Type) :=
| Return (a : A) (s : session)
| Raise (e : exn)
| OutOfFuel.
Arguments Return {A} a s.
Arguments Raise {A} e.
Arguments OutOfFuel {A}.

Definition bind {A B} (c : session → outcome A)
    (f : A → session → outcome B) : session → outcome B :=
  λ s, match c s with
       | Return a s' => f a s'
       | Raise e => Raise e
       | OutOfFuel => OutOfFuel
       end.

Definition ret {A} (a : A) : session → outcome A := Return a.

Definition lift {A} (r : result A) : session → outcome A :=
  λ s, match r with
       | Ok a => Return a s
       | Err e => Raise e
       end.

Notation "'let*' x := c 'in' f" := (bind c (λ x, f))
  (at level 10, x name, c at level 100, f at level 200).

(** A [for] loop over [l] that updates [acc]. *)
Fixpoint for_each {A B} (body : A → B → session → outcome B)
    (l : list A) (acc : B) : session → outcome B :=
  match l with
  | [] => ret acc
  | x :: l' => let* acc' := body x acc in for_each body l' acc'
  end.

Fixpoint rfor_each {A B} (body : A → B → result B)
    (l : list A) (acc : B) : result B :=
  match l with
  | [] => Ok acc
  | x :: l' => rbind (body x acc) (rfor_each body l')
  end.

Fixpoint rmap {A B} (f : A → result B) (l : list A) : result (list B) :=
  match l with
  | [] => Ok []
  | x :: l' => rbind (f x) (λ y, rbind (rmap f l') (λ ys, Ok (y :: ys)))
  end.

(** ** The import graph walker: class [ImportResolver] *)

Record ImportResolver := {
  decorator : list string;
  file_path : option string;
  recursive : bool
}.

Definition stale_manual_warning (module_name : option string)
    (key : cache_key) : string :=
  "skipping module " +:+ default "None" module_name +:+
  " because it has an obsolete, manually generated, cache file: " +:+
  module_hash key.

Section Resolver.
Variable E : collaborators.

(** [self.key_factory]: chosen by [recursive] when the root resolver is
    built, and inherited, as [recursive] is, by every child.  The key is
    the one the factory returns; [CacheKeyFactory] hashes the bytes of
    the file, while [RecursiveCacheKeyFactory] also reads the imports of
    the module to hash them, and the calls in which it fails on a file
    that it cannot read as a module are not covered. *)
Definition key_factory (self : ImportResolver) : string → cache_key :=
  if recursive self then RecursiveCacheKeyFactory E else CacheKeyFactory E.

Section Visitor.
(** [self.load_deprecated_from_module] *)
Variable load : option string → session → outcome (option (gset string)).
(** [self.def_use_chains] and [self.ancestors] *)
Variable m : module_ast.

Definition visit_Import_user (names : gset string) (user : node)
    (deprecated : gset node) : result (gset node) :=
  rbind (last_item (parents m user)) (λ parent,
    match kind m parent with
    | Attribute _ attr =>
        if decide (attr ∈ names) then Ok ({[parent]} ∪ deprecated)
        else Ok deprecated
    | _ => Ok deprecated
    end).

Definition visit_Import_alias (a : node) (deprecated : gset node)
  : session → outcome (gset node) :=
  let* name := lift (name_of (kind m a)) in
  let* found := load (Some name) in
  match found with
  | None => ret deprecated
  | Some names =>
      lift (rfor_each (visit_Import_user names) (users m a) deprecated)
  end.

Definition visit_Import (names : list node) (deprecated : gset node)
  : session → outcome (gset node) :=
  for_each visit_Import_alias names deprecated.

Definition visit_ImportFrom_name (aliases : list string)
    (names : list node) (deprec : string) (deprecated : gset node)
  : result (gset node) :=
  match index_of deprec aliases with
  | None => Ok deprecated
  | Some index =>
      match names !! index with
      | None => Err IndexError
      | Some a => Ok (list_to_set (users m a) ∪ deprecated)
      end
  end.

Definition visit_ImportFrom (module : option string) (names : list node)
    (deprecated : gset node) : session → outcome (gset node) :=
  let* found := load module in
  match found with
  | None => ret deprecated
  | Some found_names =>
      let* aliases := lift (rmap (λ a, name_of (kind m a)) names) in
      lift (rfor_each (visit_ImportFrom_name aliases names)
                      (elements found_names) deprecated)
  end.

(** [generic_visit] reaches every node; only [Import] and [ImportFrom]
    have a visitor. *)
Definition visit_node (n : node) (deprecated : gset node)
  : session → outcome (gset node) :=
  match kind m n with
  | Import names => visit_Import names deprecated
  | ImportFrom module names => visit_ImportFrom module names deprecated
  | _ => ret deprecated
  end.

(** [visit_Module], returning [self.deprecated]. *)
Definition visit_Module (self : ImportResolver)
  : session → outcome (gset node) :=
  let* deprecated := lift (collect_deprecated (decorator self) m) in
  for_each visit_node (preorder m) deprecated.
End Visitor.

Definition log_open (module_path : string) (s : session) : session :=
  {| cache := cache s; visited := visited s; warnings := warnings s;
     opened := opened s ++ [module_path] |}.

Definition add_visited (module_path : string) (s : session) : session :=
  {| cache := cache s; visited := {[module_path]} ∪ visited s;
     warnings := warnings s; opened := opened s |}.

Definition warn (msg : string) (s : session) : session :=
  {| cache := cache s; visited := visited s;
     warnings := warnings s ++ [msg]; opened := opened s |}.

Definition store (key : cache_key) (names : list string) (s : session)
  : session :=
  {| cache := cache_put (Format_version E) key "memestra" names (cache s);
     visited := visited s; warnings := warnings s; opened := opened s |}.

(** [{d.name for d in deprecated}] *)
Definition names_of (m : module_ast) (deprecated : gset node)
  : result (gset string) :=
  rbind (rmap (λ d, name_of (kind m d)) (elements deprecated))
        (λ l, Ok (list_to_set l)).

(** The [if self.recursive and module_path not in self.visited] statement,
    returning [deprecated_imports]; [load] is the method of the child
    resolver, which is built from the fields of [self]. *)
Definition deprecated_imports_of
    (load : option string → session → outcome (option (gset string)))
    (self : ImportResolver) (module_path : string) (m : module_ast)
  : session → outcome (list node) :=
  λ s,
  if recursive self && bool_decide (module_path ∉ visited s) then
    (let* resolver_deprecated := visit_Module load m self in
     ret ((λ t, t.2) <$> get_deprecated_users m resolver_deprecated))
      (add_visited module_path s)
  else Return [] s.

(** The [with open(module_path) as fd] block of
    [load_deprecated_from_module]. *)
Definition analyse_module
    (load : option string → session → outcome (option (gset string)))
    (self : ImportResolver) (module_path : string) (module_key : cache_key)
  : session → outcome (option (gset string)) :=
  λ s,
  match files E !! module_path with
  | None => Raise OSError
  | Some Malformed => Raise SyntaxError
  | Some Undecodable => Return (Some ∅) (log_open module_path s)
  | Some (Parsed m) =>
      (let* deprecated_imports :=
         deprecated_imports_of load self module_path m in
       let* deprecated := lift (collect_deprecated (decorator self) m) in
       let* dl :=
         lift (names_of m (deprecated ∪ list_to_set deprecated_imports)) in
       λ s', Return (Some dl)
               (store module_key (merge_sort String.le (elements dl)) s'))
        (log_open module_path s)
  end.

Fixpoint load_deprecated_from_module (fuel : nat) (self : ImportResolver)
    (module_name : option string) (s : session)
  : outcome (option (gset string)) :=
  match fuel with
  | 0 => OutOfFuel
  | S fuel' =>
      match resolve_module E module_name (file_path self) with
      | None => Return None s
      | Some module_path =>
          let module_key := key_factory self module_path in
          let analyse :=
            analyse_module (load_deprecated_from_module fuel' self)
                           self module_path module_key in
          match cache s !! module_key with
          | Some data =>
              if decide (version data = Format_version E) then
                Return (Some (list_to_set (deprecated data))) s
              else if decide (generator data = "manual") then
                Return (Some ∅)
                       (warn (stale_manual_warning module_name module_key) s)
              else analyse s
          | None => analyse s
          end
      end
  end.
End Resolver.

(** ** The entry point: [prettyname] and [memestra] *)

(** [prettyname].  The recursion follows [node.value]; a tree has no more
    nested attribute accesses than nodes, which bounds it. *)
Fixpoint prettyname_upto (depth : nat) (E : collaborators) (m : module_ast)
    (n : node) : string :=
  match kind m n with
  | FunctionDef name | AsyncFunctionDef name | ClassDef name => name
  | Name id => id
  | Attribute value attr =>
      match depth with
      | 0 => repr E n
      | S depth' => prettyname_upto depth' E m value +:+ "." +:+ attr
      end
  | _ => repr E n
  end.

Definition prettyname (E : collaborators) (m : module_ast) (n : node)
  : string :=
  prettyname_upto (length (preorder m)) E m n.

(** An output tuple [(function, filename, line, colno)]. *)
Abbreviation finding := (string * string * Z * Z)%type.

(** Python's order on tuples: the first unequal components decide. *)
Definition lex_le {A B} (RA : relation A) (RB : relation B)
  : relation (A * B) :=
  λ p q, (p.1 ≠ q.1 ∧ RA p.1 q.1) ∨ (p.1 = q.1 ∧ RB p.2 q.2).

Definition finding_le : relation finding :=
  lex_le (lex_le (lex_le String.le String.le) Z.le) Z.le.

Global Instance lex_le_dec {A B} (RA : relation A) (RB : relation B)
  `{EqDecision A, RelDecision A A RA, RelDecision B B RB} :
  RelDecision (lex_le RA RB).
Proof. intros p q. unfold lex_le. apply _. Defined.

Global Instance finding_le_dec : RelDecision finding_le.
Proof. unfold finding_le. apply _. Defined.

Record file_descriptor := {
  fd_name : option string;      (* [getattr(file_descriptor, 'name', ...)] *)
  fd_read : source              (* [ast.parse(file_descriptor.read())] *)
}.

Section Memestra.
Variable E : collaborators.

Definition format_use (fd : file_descriptor) (m : module_ast)
    (t : node * node * node) : finding :=
  (prettyname E m t.1.1, default "<>" (fd_name fd),
   lineno m t.1.2, col_offset m t.1.2).

(** [memestra], given the content of the persistent cache store and
    returning with the result the session it leaves. *)
Definition memestra (fuel : nat) (persisted : gmap cache_key entry)
    (fd : file_descriptor) (decorator : list string)
    (file_path : option string) (recursive : bool)
  : outcome (list finding) :=
  if decide (1 < length decorator) then
    match fd_read fd with
    | Undecodable => Raise UnicodeDecodeError
    | Malformed => Raise SyntaxError
    | Parsed module =>
        let resolver :=
          {| decorator := decorator; file_path := file_path;
             recursive := recursive |} in
        (let* deprecated :=
           visit_Module (load_deprecated_from_module E fuel resolver)
                        module resolver in
         ret (merge_sort finding_le
                (format_use fd module <$>
                   get_deprecated_users module deprecated)))
          {| cache := persisted; visited := ∅;
             warnings := []; opened := [] |}
    end
  else Raise AssertionError.
End Memestra.

(** ** Example programs *)

(** A table of node fields, with a default for the nodes it does not list. *)
Fixpoint table {A} (d : A) (l : list (node * A)) (n : node) : A :=
  match l with
  | [] => d
  | (k, v) :: l' => if decide (k = n) then v else table d l' n
  end.

Module Examples.
Open Scope positive_scope.

(** [a.py]:
<<
import d
@d.dep
def h(): ...
h()
>> *)
Definition mod_a : module_ast := {|
  kind := table Other
    [(1, Module); (2, Import [3]); (3, alias "d"); (4, FunctionDef "h");
     (5, Attribute 6 "dep"); (6, Name "d"); (9, Name "h")];
  lineno := table 0%Z
    [(2, 1%Z); (3, 1%Z); (4, 3%Z); (5, 2%Z); (6, 2%Z); (7, 4%Z); (8, 4%Z);
     (9, 4%Z)];
  col_offset := table 0%Z [(3, 7%Z); (5, 1%Z); (6, 1%Z)];
  preorder := [1; 2; 3; 4; 5; 6; 7; 8; 9];
  locals := [3; 4];
  users := table [] [(3, [6]); (4, [9]); (9, [8]); (6, [5])];
  parents := table []
    [(2, [1]); (3, [1; 2]); (4, [1]); (5, [1; 4]); (6, [1; 4; 5]);
     (7, [1]); (8, [1; 7]); (9, [1; 7; 8])]
|}.

(** [b.py]:
<<
from a import h
h()
>> *)
Definition mod_b : module_ast := {|
  kind := table Other
    [(1, Module); (2, ImportFrom (Some "a") [3]); (3, alias "h");
     (6, Name "h")];
  lineno := table 0%Z [(2, 1%Z); (3, 1%Z); (4, 2%Z); (5, 2%Z); (6, 2%Z)];
  col_offset := table 0%Z [(3, 14%Z)];
  preorder := [1; 2; 3; 4; 5; 6];
  locals := [3];
  users := table [] [(3, [6]); (6, [5])];
  parents := table []
    [(2, [1]); (3, [1; 2]); (4, [1]); (5, [1; 4]); (6, [1; 4; 5])]
|}.


(** A decorator imported by name, [from <pkg> import <dec>]:
<<
from pkg import dec
@dec
def g(): ...
g()
>> *)
Definition mod_from (pkg dec : string) : module_ast := {|
  kind := table Other
    [(1, Module); (2, ImportFrom (Some pkg) [3]); (3, alias dec);
     (4, FunctionDef "g"); (5, Name dec); (8, Name "g")];
  lineno := table 0%Z
    [(2, 1%Z); (3, 1%Z); (4, 3%Z); (5, 2%Z); (6, 4%Z); (7, 4%Z); (8, 4%Z)];
  col_offset := table 0%Z [(5, 1%Z)];
  preorder := [1; 2; 3; 4; 5; 6; 7; 8];
  locals := [3; 4];
  users := table [] [(3, [5]); (4, [8]); (8, [7])];
  parents := table []
    [(2, [1]); (3, [1; 2]); (4, [1]); (5, [1; 4]); (6, [1]);
     (7, [1; 6]); (8, [1; 6; 7])]
|}.

(** Two deprecated functions, one calling the other:
<<
import d
@d.dep
def f(): ...
@d.dep
def g():
    f()
f()
>> *)
Definition mod_nested : module_ast := {|
  kind := table Other
    [(1, Module); (2, Import [3]); (3, alias "d"); (4, FunctionDef "f");
     (5, Attribute 6 "dep"); (6, Name "d"); (7, FunctionDef "g");
     (8, Attribute 9 "dep"); (9, Name "d"); (12, Name "f");
     (15, Name "f")];
  lineno := table 0%Z
    [(2, 1%Z); (3, 1%Z); (4, 3%Z); (5, 2%Z); (6, 2%Z); (7, 5%Z); (8, 4%Z);
     (9, 4%Z);
     (10, 6%Z); (11, 6%Z); (12, 6%Z); (13, 7%Z); (14, 7%Z); (15, 7%Z)];
  col_offset := table 0%Z
    [(3, 7%Z); (5, 1%Z); (6, 1%Z); (8, 1%Z); (9, 1%Z); (10, 4%Z); (11, 4%Z);
     (12, 4%Z)];
  preorder := [1; 2; 3; 4; 5; 6; 7; 8; 9; 10; 11; 12; 13; 14; 15];
  locals := [3; 4; 7];
  users := table []
    [(3, [6; 9]); (4, [12; 15]); (6, [5]); (9, [8]); (12, [11]);
     (15, [14])];
  parents := table []
    [(2, [1]); (3, [1; 2]); (4, [1]); (5, [1; 4]); (6, [1; 4; 5]);
     (7, [1]); (8, [1; 7]); (9, [1; 7; 8]); (10, [1; 7]);
     (11, [1; 7; 10]); (12, [1; 7; 10; 11]); (13, [1]); (14, [1; 13]);
     (15, [1; 13; 14])]
|}.


(** A module whose only statement is [import <name>]. *)
Definition mod_import (name : string) : module_ast := {|
  kind := table Other [(1, Module); (2, Import [3]); (3, alias name)];
  lineno := table 0%Z [(2, 1%Z); (3, 1%Z)];
  col_offset := table 0%Z [(3, 7%Z)];
  preorder := [1; 2; 3];
  locals := [3];
  users := table [] [];
  parents := table [] [(2, [1]); (3, [1; 2])]
|}.

(** A file system where [ca.py] and [cb.py] import each other, [bin.so]
    is not text and [bad.py] does not parse; the module [d] of the
    decorator is not found. *)
Definition world : collaborators := {|
  Format_version := 1;
  resolve_module := λ name _,
    name ≫= λ n,
      if decide (n = "bin") then Some "bin.so"
      else if decide (n ∈ ["a"; "ca"; "cb"; "bad"]) then Some (n +:+ ".py")
      else None;
  CacheKeyFactory := λ p, (p, "direct");
  RecursiveCacheKeyFactory := λ p, (p, "recursive");
  files := {[ "a.py" := Parsed mod_a;
              "ca.py" := Parsed (mod_import "cb");
              "cb.py" := Parsed (mod_import "ca");
              "bin.so" := Undecodable;
              "bad.py" := Malformed ]};
  repr := λ _, "<gast.gast.AST object>"
|}.

Definition fd_of (name : string) (m : module_ast) : file_descriptor :=
  {| fd_name := Some name; fd_read := Parsed m |}.

Definition d_dep : list string := ["d"; "dep"].

Definition resolver_of (recursive : bool) : ImportResolver :=
  {| decorator := d_dep; file_path := None; recursive := recursive |}.

Definition session_of (c : gmap cache_key entry) : session :=
  {| cache := c; visited := ∅; warnings := []; opened := [] |}.

(** A store with a trusted entry, a stale hand-written entry and a stale
    entry of the tool. *)
Definition old_store : gmap cache_key entry :=
  {[ ("a.py", "direct") :=
       {| version := 1; generator := "manual"; deprecated := ["h"; "k"] |};
     ("ca.py", "direct") :=
       {| version := 0; generator := "manual"; deprecated := ["x"] |};
     ("cb.py", "direct") :=
       {| version := 0; generator := "memestra"; deprecated := ["y"] |} ]}.
End Examples.

(** ** Notions used in the statements *)

(** [chain] is a run of attribute accesses, innermost first, whose names
    are the segments [segs] in order. *)
Definition attr_chain (m : module_ast) (segs : list string)
    (chain : list node) : Prop :=
  Forall2 (λ seg c, ∃ v, kind m c = Attribute v seg) segs chain.

(** A cache answer that [load_deprecated_from_module] neither returns nor
    warns about: there is no entry, or it is stale and not hand-written. *)
Definition untrusted (E : collaborators) (o : option entry) : Prop :=
  ∀ data, o = Some data →
    version data ≠ Format_version E ∧ generator data ≠ "manual".

(** An entry that is returned or warned about, and so never recomputed. *)
Definition sticky (E : collaborators) (e : entry) : Prop :=
  version e = Format_version E ∨ generator e = "manual".






(** [spec P oof c]: started in a session satisfying [P], the computation
    [c] leaves a session satisfying [P] when it returns, and [oof] holds
    when it runs out of fuel. *)
Definition spec {A : Type} (P : session → Prop) (oof : Prop)
    (c : session → outcome A) : Prop :=
  ∀ s, P s →
    match c s with
    | Return _ s' => P s'
    | Raise _ => True
    | OutOfFuel => oof
    end.

(** The visited set contains [V]. *)
Definition visited_above (V : gset string) (s : session) : Prop :=
  V ⊆ visited s.

(** [k] is the key of a module whose source parses. *)
Definition parsed_key (E : collaborators) (self : ImportResolver)
    (k : cache_key) : Prop :=
  ∃ p m, files E !! p = Some (Parsed m) ∧ key_factory E self p = k.

(** From [c] to [c'] every sticky entry is kept, and only keys of parsed
    modules are written. *)
Definition cache_grows (E : collaborators) (self : ImportResolver)
    (c c' : gmap cache_key entry) : Prop :=
  (∀ k e, c !! k = Some e → sticky E e → c' !! k = Some e) ∧
  (∀ k, ¬ parsed_key E self k → c' !! k = c !! k).

(** [c] changes the cache only by growing it. *)
Definition steps {A : Type} (E : collaborators) (self : ImportResolver)
    (c : session → outcome A) : Prop :=
  ∀ c0, spec (λ s, cache_grows E self c0 (cache s)) True c.

(** A session of a second run: its cache is [cfin], and it has opened
    only files that cannot be decoded. *)
Definition warm (E : collaborators) (cfin : gmap cache_key entry)
    (t : session) : Prop :=
  cache t = cfin ∧ ∀ p, p ∈ opened t → files E !! p = Some Undecodable.

(** Whatever [c1] returned in the first run, [c2] returns in a session of
    the second run. *)
Definition replays {A : Type} (E : collaborators) (self : ImportResolver)
    (cfin : gmap cache_key entry) (c1 c2 : session → outcome A) : Prop :=
  ∀ s r s', c1 s = Return r s' →
    cache_grows E self (cache s') cfin →
    ∀ t, warm E cfin t → ∃ t', c2 t = Return r t' ∧ warm E cfin t'.

(** The session an outcome leaves. *)
Definition session_after {A : Type} (o : outcome A) : session :=
  match o with
  | Return _ s => s
  | _ => {| cache := ∅; visited := ∅; warnings := []; opened := [] |}
  end.

(** ** The command line: [run] *)

(** What [parser.parse_args()] returns: the three arguments, [input]
    being an open file with its [name]. *)
Record arguments := {
  arg_decorator : string;
  arg_recursive : bool;
  arg_input_name : string;
  arg_input : source
}.

(** The default of [--decorator]. *)
Definition default_decorator : string := "decorator.deprecated".

(** An analyser as [run] calls it: [memestra], or what a plugin has put in
    [dispatcher]. *)
Abbreviation analyser :=
  (file_descriptor → list string → option string → bool →
   outcome (list finding)).

(** ["{} used at {}:{}:{}".format(fname, fd, lineno, colno + 1)] *)
Definition report (use : finding) : string :=
  use.1.1.1 +:+ " used at " +:+ use.1.1.2 +:+ ":" +:+ pretty use.1.2 +:+
  ":" +:+ pretty (use.2 + 1)%Z.

(** [run], after the arguments are parsed.  [splitext] is
    [os.path.splitext]; [plugins] holds what the entry points of
    [memestra.plugins] have stored in [dispatcher], a [defaultdict] whose
    default is [memestra].  The result is the list of printed lines. *)
Definition run (E : collaborators) (fuel : nat)
    (persisted : gmap cache_key entry)
    (splitext : string → string * string) (plugins : gmap string analyser)
    (args : arguments) : outcome (list string) :=
  let extension := (splitext (arg_input_name args)).2 in
  let analyse := default (memestra E fuel persisted) (plugins !! extension) in
  match analyse {| fd_name := Some (arg_input_name args);
                   fd_read := arg_input args |}
                (split_dot (arg_decorator args))
                (Some (arg_input_name args)) (arg_recursive args) with
  | Return deprecate_uses s => Return (report <$> deprecate_uses) s
  | Raise e => Raise e
  | OutOfFuel => OutOfFuel
  end.

(** ** Further notions used in the statements *)

(** [s] has no dot. *)
Fixpoint dotless (s : string) : bool :=
  match s with
  | EmptyString => true
  | String c s' => negb (Ascii.eqb c "."%char) && dotless s'
  end.

(** The ancestors of [n] start at the [Module] node. *)
Definition rooted (m : module_ast) (n : node) : Prop :=
  match parents m n with
  | root :: _ => kind m root = Module
  | [] => False
  end.

(** The use [user] of the import binding [dlocal] makes [collect_local]
    add [p]: in prefix mode [p] is a definition directly above the chain
    of attribute accesses that spells the rest of the decorator path, in
    final-segment mode it is a definition directly above the use. *)
Definition contributes (decorator : list string) (m : module_ast)
    (dlocal user p : node) : Prop :=
  ∃ name,
    kind m dlocal = alias name ∧ user ∈ users m dlocal ∧
    is_defs (kind m p) = true ∧
    let nbterms := length (split_dot name) in
    (split_dot name = take nbterms decorator ∧
     ∃ above chain,
       parents m user = above ++ p :: reverse chain ∧
       attr_chain m (drop nbterms decorator) chain) ∨
    (split_dot name ≠ take nbterms decorator ∧
     split_dot name = last_slice decorator ∧
     (∃ import names,
        last (parents m dlocal) = Some import ∧
        kind m import
        = ImportFrom (Some (join_dot (but_last_slice decorator))) names) ∧
     last (parents m user) = Some p).

(** A cache entry as [load_deprecated_from_module] writes it. *)
Definition tool_entry (E : collaborators) (e : entry) : Prop :=
  version e = Format_version E ∧ generator e = "memestra" ∧
  StronglySorted String.le (deprecated e) ∧ NoDup (deprecated e).

Module MoreExamples.
Open Scope positive_scope.

(** A use through the module name:
<<
import a
a.h()
>> *)
Definition mod_attr : module_ast := {|
  kind := table Other
    [(1, Module); (2, Import [3]); (3, alias "a"); (6, Attribute 7 "h");
     (7, Name "a")];
  lineno := table 0%Z
    [(2, 1%Z); (3, 1%Z); (4, 2%Z); (5, 2%Z); (6, 2%Z); (7, 2%Z)];
  col_offset := table 0%Z [(3, 7%Z)];
  preorder := [1; 2; 3; 4; 5; 6; 7];
  locals := [3];
  users := table [] [(3, [7]); (7, [6]); (6, [5])];
  parents := table []
    [(2, [1]); (3, [1; 2]); (4, [1]); (5, [1; 4]); (6, [1; 4; 5]);
     (7, [1; 4; 5; 6])]
|}.

(** A module without imports:
<<
def f(): ...
f()
>> *)
Definition mod_plain : module_ast := {|
  kind := table Other [(1, Module); (2, FunctionDef "f"); (5, Name "f")];
  lineno := table 0%Z [(2, 1%Z); (3, 2%Z); (4, 2%Z); (5, 2%Z)];
  col_offset := table 0%Z [];
  preorder := [1; 2; 3; 4; 5];
  locals := [2];
  users := table [] [(2, [5]); (5, [4])];
  parents := table [] [(2, [1]); (3, [1]); (4, [1; 3]); (5, [1; 3; 4])]
|}.

(** [lib.py], where [k] uses the deprecated [h]:
<<
import d
@d.dep
def h(): ...
def k():
    h()
>> *)
Definition mod_lib : module_ast := {|
  kind := table Other
    [(1, Module); (2, Import [3]); (3, alias "d"); (4, FunctionDef "h");
     (5, Attribute 6 "dep"); (6, Name "d"); (7, FunctionDef "k");
     (10, Name "h")];
  lineno := table 0%Z
    [(2, 1%Z); (3, 1%Z); (4, 3%Z); (5, 2%Z); (6, 2%Z); (7, 4%Z); (8, 5%Z);
     (9, 5%Z); (10, 5%Z)];
  col_offset := table 0%Z
    [(3, 7%Z); (5, 1%Z); (6, 1%Z); (8, 4%Z); (9, 4%Z); (10, 4%Z)];
  preorder := [1; 2; 3; 4; 5; 6; 7; 8; 9; 10];
  locals := [3; 4; 7];
  users := table [] [(3, [6]); (4, [10]); (6, [5]); (10, [9])];
  parents := table []
    [(2, [1]); (3, [1; 2]); (4, [1]); (5, [1; 4]); (6, [1; 4; 5]);
     (7, [1]); (8, [1; 7]); (9, [1; 7; 8]); (10, [1; 7; 8; 9])]
|}.

(** A file system that holds [lib.py] only. *)
Definition lib_world : collaborators := {|
  Format_version := 1;
  resolve_module := λ name _,
    name ≫= λ n, if decide (n = "lib") then Some "lib.py" else None;
  CacheKeyFactory := λ p, (p, "direct");
  RecursiveCacheKeyFactory := λ p, (p, "recursive");
  files := {[ "lib.py" := Parsed mod_lib ]};
  repr := λ _, "<gast.gast.AST object>"
|}.

(** [os.path.splitext] on a name that ends in [.py] and has no other
    dot. *)
Definition splitext_py (name : string) : string * string :=
  let n := (String.length name - 3)%nat in
  (String.substring 0 n name, String.substring n 3 name).
End MoreExamples.

(** [n] is the expression [x.a1. ... .ak], whose segments are [segs]. *)
Inductive dotted (m : module_ast) : node → list string → Prop :=
| dotted_Name n id :
    kind m n = Name id → dotted m n [id]
| dotted_Attribute n value attr segs :
    kind m n = Attribute value attr → dotted m value segs →
    dotted m n (segs ++ [attr]).

(** * Properties *)

(** ** The order on findings *)

Section LexOrder.
Context {A B : Type} (RA : relation A) (RB : relation B).
Context `{!EqDecision A}.

Global Instance lex_le_total `{!Total RA, !Total RB} : Total (lex_le RA RB).
Proof.
  intros [a b] [a' b']. unfold lex_le; simpl.
  destruct (decide (a = a')) as [->|Hne].
  - destruct (total RB b b'); [left|right]; right; done.
  - destruct (total RA a a'); [left|right]; left; split; congruence.
Qed.

Global Instance lex_le_antisymm `{!AntiSymm (=) RA, !AntiSymm (=) RB} :
  AntiSymm (=) (lex_le RA RB).
Proof.
  intros [a b] [a' b']. unfold lex_le; simpl.
  intros [[Hne H1]|[-> H1]] [[Hne' H2]|[Heq H2]]; try congruence.
  - destruct Hne. by apply (anti_symm RA).
  - f_equal. by apply (anti_symm RB).
Qed.

Global Instance lex_le_trans
  `{!Transitive RA, !AntiSymm (=) RA, !Transitive RB} :
  Transitive (lex_le RA RB).
Proof.
  intros [a b] [a' b'] [a'' b'']. unfold lex_le; simpl.
  intros [[Hne H1]|[-> H1]] [[Hne' H2]|[<- H2]].
  - left. split; [|by trans a'].
    intros ->. destruct Hne. by apply (anti_symm RA).
  - left. done.
  - left. done.
  - right. split; [done|by trans b'].
Qed.
End LexOrder.

Global Instance finding_le_total : Total finding_le.
Proof. unfold finding_le. apply _. Qed.
Global Instance finding_le_trans : Transitive finding_le.
Proof. unfold finding_le. apply _. Qed.

(** ** Output of [memestra] *)

Lemma finding_le_antisymm : AntiSymm (=) finding_le.
Proof. unfold finding_le. apply _. Qed.


(** ** The use-site propagator *)

Lemma filter_flat_map {A B} (P : B → Prop) `{!∀ x, Decision (P x)}
    (f : A → list B) (l : list A) :
  filter P (flat_map f l) = flat_map (λ x, filter P (f x)) l.
Proof.
  induction l as [|x l IH]; simpl; [done|].
  by rewrite filter_app, IH.
Qed.

Lemma flat_map_nil {A B} (f : A → list B) (l : list A) :
  (∀ y, y ∈ l → f y = []) → flat_map f l = [].
Proof.
  induction l as [|z l IH]; simpl; intros Hnil; [done|].
  rewrite Hnil by left. apply IH. intros y Hy. apply Hnil. by right.
Qed.

Lemma flat_map_only {A B} (f : A → list B) (l : list A) (x : A) :
  NoDup l → x ∈ l → (∀ y, y ∈ l → y ≠ x → f y = []) →
  flat_map f l = f x.
Proof.
  induction 1 as [|y l Hy Hnd IH]; intros Hin Hother.
  - by apply elem_of_nil in Hin.
  - simpl. apply elem_of_cons in Hin as [->|Hin].
    + rewrite flat_map_nil; [by rewrite app_nil_r|].
      intros z Hz. apply Hother; [by right|]. by intros ->.
    + rewrite Hother; [|left|by intros ->].
      apply IH; [done|]. intros z Hz. apply Hother. by right.
Qed.

Lemma elem_of_flat_map {A B} (f : A → list B) (l : list A) (b : B) :
  b ∈ flat_map f l ↔ ∃ a, a ∈ l ∧ b ∈ f a.
Proof.
  rewrite !list_elem_of_In, in_flat_map.
  by setoid_rewrite list_elem_of_In.
Qed.

(** C2.  For a deprecated definition [D] and a reader [u] of it,
    [get_deprecated_users] emits no triple at all for [u] when one of the
    function, class or async-function ancestors of [u] is in the Deprecated
    Set, and otherwise exactly one triple [(D, u, c)], where [c] is the
    innermost such ancestor of [u] if there is one and [u] itself if
    not. *)
Theorem no_self_flagging (m : module_ast) (deprecated : gset node)
    (D u : node) :
  D ∈ deprecated → u ∈ users m D → NoDup (users m D) →
  let out := get_deprecated_users m deprecated in
  let enclosing := filter (λ n, is_defs (kind m n)) (parents m u) in
  ((∃ f, f ∈ enclosing ∧ f ∈ deprecated) → ∀ D' c, (D', u, c) ∉ out) ∧
  ((∀ f, f ∈ enclosing → f ∉ deprecated) →
     ∃ c, filter (λ t, t.1 = (D, u)) out = [(D, u, c)] ∧
          (∀ f, last enclosing = Some f → c = f) ∧
          (enclosing = [] → c = u)).
Proof.
  intros HD Hu Hnd out enclosing. split.
  - intros (f & Hf & Hfd) D' c Hin.
    apply elem_of_flat_map in Hin as (D2 & _ & Hin).
    apply elem_of_flat_map in Hin as (u2 & _ & Hin).
    unfold deprecated_use in Hin.
    destruct (decide _) as [|Hno]; [by apply elem_of_nil in Hin|].
    apply list_elem_of_singleton in Hin. simplify_eq.
    apply Hno, Exists_exists. eauto.
  - intros Hfree.
    exists (default u (last enclosing)). split; [|split].
    + unfold out, get_deprecated_users. rewrite filter_flat_map.
      rewrite (flat_map_only _ _ D).
      * rewrite filter_flat_map. rewrite (flat_map_only _ _ u); [|done..|].
        -- unfold deprecated_use. rewrite decide_False.
           ++ by rewrite filter_cons_True.
           ++ intros (f & Hf & Hfd)%Exists_exists. by apply (Hfree f).
        -- intros u' _ Hne. unfold deprecated_use.
           destruct (decide _); [done|].
           rewrite filter_cons_False; [done|]. simpl. congruence.
      * apply NoDup_elements.
      * by apply elem_of_elements.
      * intros D' _ Hne. rewrite filter_flat_map.
        induction (users m D') as [|u' l IH]; simpl; [done|].
        rewrite IH, app_nil_r. unfold deprecated_use.
        destruct (decide _); [done|].
        rewrite filter_cons_False; [done|]. simpl. congruence.
    + by intros f ->.
    + by intros ->.
Qed.

(** ** The decorator matcher *)

Section MatcherFacts.
Variable decorator : list string.
Variable m : module_ast.

Lemma walk_attrs_consumed attrs up rest :
  walk_attrs m attrs up = ([], rest) ↔
  ∃ chain, up = chain ++ rest ∧ attr_chain m attrs chain.
Proof.
  revert up. induction attrs as [|attr attrs IH]; intros up.
  - destruct up; simpl.
    + split.
      * intros [= <-]. exists []. split; [done|constructor].
      * intros (chain & Heq & Hc). inversion Hc; subst.
        by simpl in Heq; subst.
    + split.
      * intros [= <-]. exists []. split; [done|constructor].
      * intros (chain & Heq & Hc). inversion Hc; subst.
        by simpl in Heq; subst.
  - destruct up as [|parent up]; simpl.
    + split; [done|]. intros (chain & Heq & Hc).
      inversion Hc; subst. done.
    + split.
      * destruct (kind m parent) eqn:Hk; try done.
        destruct (decide _) as [->|]; [|done].
        intros Hw. apply IH in Hw as (chain & -> & Hc).
        exists (parent :: chain). split; [done|].
        constructor; [eauto|done].
      * intros (chain & Heq & Hc).
        inversion Hc as [|? c ? chain' [v Hv] Hc']; subst.
        simpl in Heq. injection Heq as -> ->.
        rewrite Hv. rewrite decide_True by done.
        apply IH. eauto.
Qed.

Lemma prefix_target_Some nbterms user p :
  prefix_target decorator m nbterms user = Ok (Some p) ↔
  ∃ above chain,
    parents m user = above ++ p :: reverse chain ∧
    attr_chain m (drop nbterms decorator) chain ∧
    is_defs (kind m p) = true.
Proof.
  unfold prefix_target.
  destruct (walk_attrs m _ _) as [attrs up] eqn:Hw.
  split.
  - destruct attrs; [|done]. destruct up as [|top up]; [done|].
    destruct (is_defs (kind m top)) eqn:Hd; [|done].
    intros [= ->]. apply walk_attrs_consumed in Hw as (chain & Heq & Hc).
    exists (reverse up), chain. split; [|done].
    apply (f_equal reverse) in Heq. rewrite reverse_involutive in Heq.
    rewrite Heq, reverse_app, reverse_cons, <- app_assoc. done.
  - intros (above & chain & Heq & Hc & Hd).
    assert (walk_attrs m (drop nbterms decorator) (reverse (parents m user))
            = ([], p :: reverse above)) as Hw'.
    { apply walk_attrs_consumed. exists chain. split; [|done].
      rewrite Heq, reverse_app, reverse_cons, reverse_involutive.
      by rewrite <- app_assoc. }
    rewrite Hw' in Hw. injection Hw as <- <-. by rewrite Hd.
Qed.

Lemma final_target_Some user p :
  final_target m user = Ok (Some p) ↔
  last (parents m user) = Some p ∧ is_defs (kind m p) = true.
Proof.
  unfold final_target, last_item.
  destruct (last (parents m user)) as [q|]; simpl.
  - destruct (is_defs (kind m q)) eqn:Hd; split.
    + by intros [= ->].
    + by intros [[= ->] _].
    + done.
    + intros [[= ->] ?]. congruence.
  - split; [done|]. by intros [? _].
Qed.

Lemma add_targets_Ok target us D0 D :
  add_targets target us D0 = Ok D →
  D0 ⊆ D ∧
  (∀ u, u ∈ us → ∃ t, target u = Ok t ∧ ∀ p, t = Some p → p ∈ D) ∧
  (∀ p, p ∈ D → p ∈ D0 ∨ ∃ u, u ∈ us ∧ target u = Ok (Some p)).
Proof.
  revert D0. induction us as [|u us IH]; simpl; intros D0.
  - intros [= ->]. split; [done|]. split; [|by left].
    intros u Hu. by apply elem_of_nil in Hu.
  - destruct (target u) as [t|] eqn:Ht; simpl; [|done].
    intros Hrest. apply IH in Hrest as (Hsub & Hall & Hback). split; [|split].
    + destruct t; [|done]. trans ({[n]} ∪ D0); [apply union_subseteq_r|done].
    + intros u' [->|Hu']%elem_of_cons.
      * exists t. split; [done|]. intros p ->.
        apply Hsub, elem_of_union_l, elem_of_singleton. done.
      * apply Hall, Hu'.
    + intros p Hp. destruct (Hback p Hp) as [Hin|(u' & Hu' & Hp')].
      * destruct t as [q|]; [|by left].
        apply elem_of_union in Hin as [->%elem_of_singleton|]; [|by left].
        right. exists u. split; [left|done].
      * right. exists u'. split; [by right|done].
Qed.

Lemma collect_local_mono dlocal D0 D :
  collect_local decorator m dlocal D0 = Ok D → D0 ⊆ D.
Proof.
  unfold collect_local. destruct (kind m dlocal); try by intros [= ->].
  repeat case_decide; try by intros [= ->].
  - by intros ?%add_targets_Ok%proj1.
  - destruct (last_item _) as [parent|]; simpl; [|done].
    destruct (kind m parent); try by intros [= ->].
    case_decide; [|by intros [= ->]].
    by intros ?%add_targets_Ok%proj1.
Qed.

Lemma collect_locals_Ok ls D0 D :
  collect_locals decorator m ls D0 = Ok D →
  D0 ⊆ D ∧
  ∀ dlocal, dlocal ∈ ls →
    ∃ D1 D2, collect_local decorator m dlocal D1 = Ok D2 ∧ D2 ⊆ D.
Proof.
  revert D0. induction ls as [|l ls IH]; simpl; intros D0.
  - intros [= ->]. split; [done|]. intros ? H. by apply elem_of_nil in H.
  - destruct (collect_local decorator m l D0) as [D1|] eqn:Hl; simpl; [|done].
    intros Hrest. apply IH in Hrest as (Hsub & Hall). split.
    + apply collect_local_mono in Hl. by trans D1.
    + intros dlocal [->|Hin]%elem_of_cons; [|by apply Hall].
      exists D0, D1. done.
Qed.
Lemma collect_local_exact dlocal D0 D :
  collect_local decorator m dlocal D0 = Ok D →
  ∀ p, p ∈ D ↔ p ∈ D0 ∨ ∃ user, contributes decorator m dlocal user p.
Proof.
  assert (∀ p, (∀ user, ¬ contributes decorator m dlocal user p) →
            p ∈ D0 ↔ p ∈ D0 ∨ ∃ user, contributes decorator m dlocal user p)
    as Hskip.
  { intros p Hno. split; [by left|]. intros [?|[u Hu]]; [done|].
    by destruct (Hno u). }
  unfold collect_local.
  destruct (kind m dlocal) as [| | | | | |name| | |] eqn:Hk;
    try (intros [= <-] p; apply Hskip; intros u (? & Hk' & _); congruence).
  destruct (decide (split_dot name = take _ decorator)) as [Hpre|Hpre].
  { intros (Hsub & Hall & Hback)%add_targets_Ok p. split.
    - intros Hp. destruct (Hback p Hp) as [?|(u & Hu & Ht)]; [by left|].
      right. exists u, name.
      apply prefix_target_Some in Ht as (above & chain & Hpar & Hc & Hd).
      repeat split; [done..|]. left. split; [done|]. by exists above, chain.
    - intros [Hp|(u & name' & Hk' & Hu & Hd & Hmode)]; [by apply Hsub|].
      rewrite Hk in Hk'. injection Hk' as <-.
      destruct Hmode as [(_ & above & chain & Hpar & Hc)|(Hno & _)];
        [|done].
      destruct (Hall u Hu) as (t & Ht & Hin). apply Hin.
      assert (prefix_target decorator m (length (split_dot name)) u
              = Ok (Some p)) as Hp
        by (apply prefix_target_Some; by exists above, chain).
      rewrite Ht in Hp. by injection Hp. }
  destruct (decide (split_dot name = last_slice decorator)) as [Hlast|Hlast].
  2: { intros [= <-] p. apply Hskip.
       intros u (name' & Hk' & _ & _ & Hmode).
       rewrite Hk in Hk'. injection Hk' as <-.
       by destruct Hmode as [(? & _)|(_ & ? & _)]. }
  unfold last_item. destruct (last (parents m dlocal)) as [parent|] eqn:Hpar;
    simpl; [|done].
  assert ((∀ names,
             kind m parent
             ≠ ImportFrom (Some (join_dot (but_last_slice decorator))) names) →
          ∀ user p, ¬ contributes decorator m dlocal user p) as Hother.
  { intros Hno u p (name' & Hk' & _ & _ & Hmode).
    rewrite Hk in Hk'. injection Hk' as <-.
    destruct Hmode as [(? & _)|(_ & _ & Himp & _)]; [done|].
    destruct Himp as (import & names & Himport & Hkind).
    rewrite Hpar in Himport. injection Himport as <-.
    by destruct (Hno names). }
  destruct (kind m parent) as [| | | | | | | |module names|] eqn:Hkp;
    try (intros [= <-] p; apply Hskip; intros u; apply Hother; congruence).
  destruct (decide (module = Some _)) as [->|Hmod].
  2: { intros [= <-] p. apply Hskip. intros u. apply Hother. congruence. }
  intros (Hsub & Hall & Hback)%add_targets_Ok p. split.
  - intros Hp. destruct (Hback p Hp) as [?|(u & Hu & Ht)]; [by left|].
    right. exists u, name.
    apply final_target_Some in Ht as (Hl & Hd).
    repeat split; [done..|]. right. repeat split; [done..| |done].
    by exists parent, names.
  - intros [Hp|(u & name' & Hk' & Hu & Hd & Hmode)]; [by apply Hsub|].
    rewrite Hk in Hk'. injection Hk' as <-.
    destruct Hmode as [(? & _)|(_ & _ & _ & Hl)]; [done|].
    destruct (Hall u Hu) as (t & Ht & Hin). apply Hin.
    assert (final_target m u = Ok (Some p)) as Hp
      by (by apply final_target_Some).
    rewrite Ht in Hp. by injection Hp.
Qed.

Lemma collect_locals_exact ls D0 D :
  collect_locals decorator m ls D0 = Ok D →
  ∀ p, p ∈ D ↔
       p ∈ D0 ∨ ∃ dlocal user,
                  dlocal ∈ ls ∧ contributes decorator m dlocal user p.
Proof.
  revert D0. induction ls as [|l ls IH]; simpl; intros D0.
  - intros [= <-] p. split; [by left|].
    intros [?|(? & ? & Hin & _)]; [done|]. by apply elem_of_nil in Hin.
  - destruct (collect_local decorator m l D0) as [D1|] eqn:Hl; simpl; [|done].
    intros Hrest p. rewrite (IH _ Hrest p), (collect_local_exact _ _ _ Hl p).
    split.
    + intros [[?|(u & Hu)]|(dl & u & Hin & Hu)]; [by left|right..].
      * exists l, u. split; [left|done].
      * exists dl, u. split; [by right|done].
    + intros [?|(dl & u & [->|Hin]%elem_of_cons & Hu)].
      * by left; left.
      * left; right. by exists u.
      * right. by exists dl, u.
Qed.

End MatcherFacts.


(** X21.  Final-segment mode, when the prefix test does not take the
    binding first: for a [from] import whose imported name is the last
    segment of the decorator path and whose module is the rest of the
    path, a use has a target exactly when the node directly above it is a
    function, class or async-function definition, and that definition is
    then in the Deprecated Set. *)
Lemma final_segment_matching (decorator : list string) (m : module_ast)
    (D : gset node) (dlocal : node) (name : string) (import : node)
    (names : list node) (user : node) :
  collect_deprecated decorator m = Ok D →
  dlocal ∈ locals m → kind m dlocal = alias name →
  split_dot name ≠ take (length (split_dot name)) decorator →
  split_dot name = last_slice decorator →
  last (parents m dlocal) = Some import →
  kind m import
  = ImportFrom (Some (join_dot (but_last_slice decorator))) names →
  user ∈ users m dlocal →
  ∃ target,
    final_target m user = Ok target ∧
    (∀ p, target = Some p ↔
       last (parents m user) = Some p ∧ is_defs (kind m p) = true) ∧
    (∀ p, target = Some p → p ∈ D).
Proof.
  intros Hc Hl Hk Hnpre Hlast Hpar Himp Hu.
  apply collect_locals_Ok in Hc as [_ Hall].
  destruct (Hall dlocal Hl) as (D1 & D2 & Hloc & Hsub).
  unfold collect_local in Hloc. rewrite Hk in Hloc.
  rewrite decide_False in Hloc by done.
  rewrite decide_True in Hloc by done.
  unfold last_item in Hloc. rewrite Hpar in Hloc. simpl in Hloc.
  rewrite Himp in Hloc. rewrite decide_True in Hloc by done.
  apply add_targets_Ok in Hloc as (_ & Hus & _).
  destruct (Hus user Hu) as (t & Ht & Hin).
  exists t. split; [done|]. split.
  - intros p. rewrite <- final_target_Some, Ht. split; congruence.
  - intros p Hp. apply Hsub. by apply Hin.
Qed.

(** ** Reasoning about resolver computations *)

Section Spec.
Context (P : session → Prop) (oof : Prop).

Lemma spec_ret {A} (a : A) : spec P oof (ret a).
Proof. intros s Hs. done. Qed.

Lemma spec_lift {A} (r : result A) : spec P oof (lift r).
Proof. intros s Hs. unfold lift. by destruct r. Qed.

Lemma spec_bind {A B} (c : session → outcome A)
    (f : A → session → outcome B) :
  spec P oof c → (∀ a, spec P oof (f a)) → spec P oof (bind c f).
Proof.
  intros Hc Hf s Hs. unfold bind. specialize (Hc s Hs).
  destruct (c s) as [a s'| |]; [|done..]. by apply Hf.
Qed.

Lemma spec_for_each {A B} (body : A → B → session → outcome B)
    (l : list A) (acc : B) :
  (∀ x acc, spec P oof (body x acc)) → spec P oof (for_each body l acc).
Proof.
  intros Hbody. revert acc. induction l as [|x l IH]; intros acc; simpl.
  - apply spec_ret.
  - apply spec_bind; [apply Hbody|]. intros acc'. apply IH.
Qed.

Section SpecVisitor.
Variable load : option string → session → outcome (option (gset string)).
Variable m : module_ast.
Hypothesis Hload : ∀ name, spec P oof (load name).

Lemma spec_visit_Import_alias a deprecated :
  spec P oof (visit_Import_alias load m a deprecated).
Proof.
  unfold visit_Import_alias.
  apply spec_bind; [apply spec_lift|]. intros name.
  apply spec_bind; [apply Hload|]. intros [found|];
    [apply spec_lift|apply spec_ret].
Qed.

Lemma spec_visit_Import names deprecated :
  spec P oof (visit_Import load m names deprecated).
Proof. apply spec_for_each. apply spec_visit_Import_alias. Qed.

Lemma spec_visit_ImportFrom module names deprecated :
  spec P oof (visit_ImportFrom load m module names deprecated).
Proof.
  unfold visit_ImportFrom.
  apply spec_bind; [apply Hload|]. intros [found|]; [|apply spec_ret].
  apply spec_bind; [apply spec_lift|]. intros aliases. apply spec_lift.
Qed.

Lemma spec_visit_Module self : spec P oof (visit_Module load m self).
Proof.
  unfold visit_Module.
  apply spec_bind; [apply spec_lift|]. intros deprecated.
  apply spec_for_each. intros n acc. unfold visit_node.
  destruct (kind m n);
    auto using spec_ret, spec_visit_Import, spec_visit_ImportFrom.
Qed.
End SpecVisitor.
End Spec.

(** ** Facts about one call of [load_deprecated_from_module] *)

Section LoadFacts.
Variable E : collaborators.

Lemma load_miss fuel self name s path :
  resolve_module E name (file_path self) = Some path →
  untrusted E (cache s !! key_factory E self path) →
  load_deprecated_from_module E (S fuel) self name s =
  analyse_module E (load_deprecated_from_module E fuel self) self path
                 (key_factory E self path) s.
Proof.
  intros Hres Hun. simpl. rewrite Hres.
  destruct (cache s !! key_factory E self path) as [data|] eqn:Hc; [|done].
  destruct (Hun data eq_refl) as [Hv Hg].
  by rewrite !decide_False.
Qed.

Lemma collect_local_defs decorator m dlocal D0 D :
  (∀ p, p ∈ D0 → is_defs (kind m p) = true) →
  collect_local decorator m dlocal D0 = Ok D →
  ∀ p, p ∈ D → is_defs (kind m p) = true.
Proof.
  intros H0. unfold collect_local.
  destruct (kind m dlocal); try by intros [= <-].
  repeat case_decide; try by intros [= <-].
  - intros (_ & _ & Hback)%add_targets_Ok p Hp.
    destruct (Hback p Hp) as [?|(u & _ & Ht)]; [by apply H0|].
    by apply prefix_target_Some in Ht as (_ & _ & _ & _ & ?).
  - destruct (last_item _) as [parent|]; simpl; [|done].
    destruct (kind m parent); try by intros [= <-].
    case_decide; [|by intros [= <-]].
    intros (_ & _ & Hback)%add_targets_Ok p Hp.
    destruct (Hback p Hp) as [?|(u & _ & Ht)]; [by apply H0|].
    by apply final_target_Some in Ht as [_ ?].
Qed.

Lemma collect_deprecated_defs decorator m D :
  collect_deprecated decorator m = Ok D →
  ∀ p, p ∈ D → is_defs (kind m p) = true.
Proof.
  unfold collect_deprecated.
  assert (∀ p, p ∈ (∅ : gset node) → is_defs (kind m p) = true) as H0
    by (intros p Hp; by apply not_elem_of_empty in Hp).
  revert H0. generalize (∅ : gset node) as D0.
  induction (locals m) as [|l ls IH]; simpl; intros D0 H0.
  - by intros [= <-].
  - destruct (collect_local decorator m l D0) as [D1|] eqn:Hl; simpl; [|done].
    apply IH. eapply collect_local_defs; eauto.
Qed.

Lemma rmap_total {A B} (f : A → result B) (l : list A) :
  (∀ x, x ∈ l → ∃ y, f x = Ok y) → ∃ ys, rmap f l = Ok ys.
Proof.
  induction l as [|x l IH]; intros Hall; simpl; [by eexists|].
  destruct (Hall x) as [y ->]; [left|].
  destruct IH as [ys ->]; [|simpl; by eexists].
  intros z Hz. apply Hall. by right.
Qed.

Lemma names_of_defs m (D : gset node) :
  (∀ p, p ∈ D → is_defs (kind m p) = true) → ∃ dl, names_of m D = Ok dl.
Proof.
  intros Hdefs. unfold names_of.
  destruct (rmap_total (λ d, name_of (kind m d)) (elements D)) as [ys ->].
  - intros p Hp%elem_of_elements%Hdefs.
    destruct (kind m p); try done; simpl; by eexists.
  - simpl. by eexists.
Qed.

(** Without a descent the block analyses the module on its own. *)
Lemma analyse_module_no_descent load self path key s m D :
  files E !! path = Some (Parsed m) →
  recursive self = false ∨ path ∈ visited s →
  collect_deprecated (decorator self) m = Ok D →
  ∃ dl, names_of m D = Ok dl ∧
    analyse_module E load self path key s =
    Return (Some dl)
      (store E key (merge_sort String.le (elements dl)) (log_open path s)).
Proof.
  intros Hfile Hno Hcol.
  destruct (names_of_defs m D) as [dl Hdl];
    [by eapply collect_deprecated_defs|].
  exists dl. split; [done|].
  unfold analyse_module, deprecated_imports_of. rewrite Hfile.
  unfold bind at 1.
  assert (recursive self && bool_decide (path ∉ visited (log_open path s))
          = false) as ->.
  { destruct Hno as [->|Hin]; [done|].
    rewrite bool_decide_eq_false_2; [by destruct (recursive self)|].
    simpl. auto. }
  unfold bind, lift. rewrite Hcol. simpl.
  rewrite (right_id_L ∅ (∪)), Hdl. done.
Qed.
End LoadFacts.

(** ** Sessions that differ only in untrusted cache entries *)

Section Equiv.
Variable E : collaborators.












End Equiv.


(** ** Error handling, write policy and the recursive flag *)

(** C3.  In a non-recursive scan, whose cache keys are content hashes,
    when no trusted or hand-written cache entry answers for an imported
    module, a source that cannot be decoded as text gives the empty
    contribution: the call returns normally, the file having been opened
    and nothing else changed, the cache included.  A source that decodes
    but does not parse is not handled: [SyntaxError] reaches the
    caller. *)
Theorem undecodable_import_is_empty (E : collaborators) (fuel : nat)
    (self : ImportResolver) (name : string) (s : session)
    (path : string) :
  recursive self = false →
  resolve_module E (Some name) (file_path self) = Some path →
  untrusted E (cache s !! CacheKeyFactory E path) →
  (files E !! path = Some Undecodable →
     load_deprecated_from_module E (S fuel) self (Some name) s =
     Return (Some ∅)
       {| cache := cache s; visited := visited s; warnings := warnings s;
          opened := opened s ++ [path] |}) ∧
  (files E !! path = Some Malformed →
     load_deprecated_from_module E (S fuel) self (Some name) s
     = Raise SyntaxError).
Proof.
  intros Hrec Hres Hun.
  assert (key_factory E self path = CacheKeyFactory E path) as Hkey
    by (unfold key_factory; by rewrite Hrec).
  rewrite (load_miss E fuel self (Some name) s path) by (by rewrite ?Hkey).
  unfold analyse_module. split; intros ->; done.
Qed.

(** C9.  A fresh computation, one that no trusted or hand-written cache
    entry answers, stores an entry when the module parses and the
    analysis completes: under the module's key, with the current format
    version, generator ["memestra"] and the sorted, duplicate-free list of
    the names it returns; it does so when there are no names as well.  A
    fresh computation on a source that cannot be decoded, in a
    non-recursive scan, returns the empty contribution and stores
    nothing. *)
Theorem cache_write_policy (E : collaborators) (fuel : nat)
    (self : ImportResolver) (name : string) (s : session) (path : string) :
  resolve_module E (Some name) (file_path self) = Some path →
  untrusted E (cache s !! key_factory E self path) →
  (∀ (m : module_ast) (imported : list node) (s1 : session)
     (D : gset node) (dl : gset string),
     files E !! path = Some (Parsed m) →
     deprecated_imports_of (load_deprecated_from_module E fuel self) self
       path m (log_open path s) = Return imported s1 →
     collect_deprecated (decorator self) m = Ok D →
     names_of m (D ∪ list_to_set imported) = Ok dl →
     ∃ (l : list string) (s' : session),
       load_deprecated_from_module E (S fuel) self (Some name) s
       = Return (Some dl) s' ∧
       cache s' !! key_factory E self path =
         Some {| version := Format_version E; generator := "memestra";
                 deprecated := l |} ∧
       StronglySorted String.le l ∧ NoDup l ∧ (∀ x, x ∈ l ↔ x ∈ dl) ∧
       (dl = ∅ → l = [])) ∧
  (recursive self = false → files E !! path = Some Undecodable →
   ∃ s' : session,
     load_deprecated_from_module E (S fuel) self (Some name) s
     = Return (Some ∅) s' ∧
     cache s' = cache s).
Proof.
  intros Hres Hun. split.
  - intros m imported s1 D dl Hfile Himp Hcol Hnames.
    exists (merge_sort String.le (elements dl)).
    eexists. split; [|split; [|split; [|split; [|split]]]].
    + rewrite (load_miss E fuel self (Some name) s path) by done.
      unfold analyse_module. rewrite Hfile.
      unfold bind at 1. rewrite Himp.
      unfold bind, lift. rewrite Hcol, Hnames. reflexivity.
    + simpl. unfold cache_put. apply lookup_insert_eq.
    + apply StronglySorted_merge_sort; apply _.
    + rewrite merge_sort_Permutation. apply NoDup_elements.
    + intros x. rewrite merge_sort_Permutation. apply elem_of_elements.
    + intros ->. rewrite elements_empty. done.
  - intros _ Hfile. eexists. split.
    + rewrite (load_miss E fuel self (Some name) s path) by done.
      unfold analyse_module. rewrite Hfile. reflexivity.
    + reflexivity.
Qed.

(** What [visit_ImportFrom] does with the names that were loaded. *)
Lemma index_of_lookup x l i : index_of x l = Some i → l !! i = Some x.
Proof.
  revert i. induction l as [|y l IH]; intros i; simpl; [done|].
  case_decide as Hy; [by intros [= <-]; subst|].
  destruct (index_of x l) as [j|]; simpl; [|done].
  intros [= <-]. by apply IH.
Qed.


Lemma rmap_length {A B} (f : A → result B) (l : list A) (ys : list B) :
  rmap f l = Ok ys → length ys = length l.
Proof.
  revert ys. induction l as [|x l IH]; intros ys; simpl; [by intros [= <-]|].
  destruct (f x) as [y|]; simpl; [|done].
  destruct (rmap f l) as [ys'|]; simpl; [|done].
  intros [= <-]. simpl. by rewrite (IH ys').
Qed.

Lemma visit_ImportFrom_names_Ok (m : module_ast) (aliases : list string)
    (names : list node) (found : list string) (deprecated : gset node) :
  length aliases = length names →
  ∃ deprecated',
    rfor_each (visit_ImportFrom_name m aliases names) found deprecated
    = Ok deprecated' ∧
    deprecated ⊆ deprecated' ∧
    ∀ deprec index a u,
      deprec ∈ found → index_of deprec aliases = Some index →
      names !! index = Some a → u ∈ users m a → u ∈ deprecated'.
Proof.
  intros Hlen. revert deprecated.
  induction found as [|deprec found IH]; intros deprecated; simpl.
  - exists deprecated. split; [done|]. split; [done|].
    intros ? ? ? ? Hin. by apply elem_of_nil in Hin.
  - unfold visit_ImportFrom_name at 1.
    destruct (index_of deprec aliases) as [index|] eqn:Hindex; simpl.
    + destruct (names !! index) as [a|] eqn:Ha; simpl.
      * destruct (IH (list_to_set (users m a) ∪ deprecated))
          as (dep' & -> & Hsub & Hmarks).
        exists dep'. split; [done|]. split.
        -- etrans; [|exact Hsub]. apply union_subseteq_r.
        -- intros d i b u [->|Hin]%elem_of_cons Hi Hb Hu.
           ++ rewrite Hindex in Hi. injection Hi as <-.
              rewrite Ha in Hb. injection Hb as <-.
              apply Hsub, elem_of_union_l, elem_of_list_to_set, Hu.
           ++ by eapply Hmarks.
      * apply index_of_lookup, lookup_lt_Some in Hindex.
        apply lookup_ge_None in Ha. lia.
    + destruct (IH deprecated) as (dep' & -> & Hsub & Hmarks).
      exists dep'. split; [done|]. split; [done|].
      intros d i b u [->|Hin]%elem_of_cons Hi Hb Hu; [congruence|].
      by eapply Hmarks.
Qed.

Lemma visit_ImportFrom_names_exact (m : module_ast)
    (aliases : list string)
    (names : list node) (found : list string)
    (deprecated deprecated' : gset node) :
  rfor_each (visit_ImportFrom_name m aliases names) found deprecated
  = Ok deprecated' →
  ∀ p, p ∈ deprecated' ↔
       p ∈ deprecated ∨
       ∃ name index a, name ∈ found ∧ index_of name aliases = Some index ∧
                       names !! index = Some a ∧ p ∈ users m a.
Proof.
  revert deprecated. induction found as [|name found IH];
    intros deprecated; simpl.
  - intros [= <-] p. split; [by left|].
    intros [?|(? & ? & ? & Hin & _)]; [done|]. by apply elem_of_nil in Hin.
  - unfold visit_ImportFrom_name at 1.
    destruct (index_of name aliases) as [index|] eqn:Hindex; simpl.
    + destruct (names !! index) as [a|] eqn:Ha; simpl; [|done].
      intros Hrest p. rewrite (IH _ Hrest p), elem_of_union,
        elem_of_list_to_set. split.
      * intros [[Hp|?]|(n & i & b & Hn & H)]; [right|by left|right].
        -- exists name, index, a. split; [left|done].
        -- exists n, i, b. split; [by right|done].
      * intros [?|(n & i & b & [->|Hn]%elem_of_cons & Hi & Hb & Hp)].
        -- by left; right.
        -- rewrite Hindex in Hi. injection Hi as <-.
           rewrite Ha in Hb. injection Hb as <-. by left; left.
        -- right. by exists n, i, b.
    + intros Hrest p. rewrite (IH _ Hrest p). split.
      * intros [?|(n & i & b & Hn & H)]; [by left|right].
        exists n, i, b. split; [by right|done].
      * intros [?|(n & i & b & [->|Hn]%elem_of_cons & Hi & Hb & Hp)].
        -- by left.
        -- congruence.
        -- right. by exists n, i, b.
Qed.


(** ** Termination *)

Section Termination.
Variable E : collaborators.
Variable self : ImportResolver.

Lemma deprecated_imports_bound load path m V :
  (∀ s, visited_above V s → path ∉ visited s →
     ∀ name, spec (visited_above ({[path]} ∪ visited s)) False (load name)) →
  spec (visited_above V) False (deprecated_imports_of load self path m).
Proof.
  intros Hload s Hs. unfold deprecated_imports_of.
  destruct (recursive self); simpl; [|done].
  case_bool_decide as Hin; simpl; [|done].
  pose proof (spec_bind (visited_above ({[path]} ∪ visited s)) False
                (visit_Module load m self)
                (λ D, ret ((λ t, t.2) <$> get_deprecated_users m D))) as Hb.
  specialize (Hb (spec_visit_Module _ _ load m (Hload s Hs Hin) self)
                 (λ D, spec_ret _ _ _) (add_visited path s)).
  destruct (bind _ _ _) as [a s'| |].
  - unfold visited_above in *. simpl in Hb.
    etrans; [exact Hs|]. etrans; [|apply Hb; done].
    apply union_subseteq_r.
  - done.
  - apply Hb. unfold visited_above. simpl. done.
Qed.

Lemma load_visited_bound fuel :
  ∀ name V, size (dom (files E) ∖ V) < fuel →
    spec (visited_above V) False
         (load_deprecated_from_module E fuel self name).
Proof.
  induction fuel as [|fuel IH]; intros name V Hsize; [lia|].
  intros s Hs. simpl.
  destruct (resolve_module E name (file_path self)) as [path|]; [|done].
  assert (spec (visited_above V) False
            (analyse_module E (load_deprecated_from_module E fuel self)
               self path (key_factory E self path))) as Han.
  { clear s Hs. intros s Hs. unfold analyse_module.
    destruct (files E !! path) as [[| |m]|] eqn:Hfile; try done.
    refine (spec_bind (visited_above V) False _ _ _ _ (log_open path s) Hs).
    - apply deprecated_imports_bound. intros s' Hs' Hout name'. apply IH.
      assert (dom (files E) ∖ ({[path]} ∪ visited s') ⊂ dom (files E) ∖ V)
        as Hlt%subset_size; [|lia].
      unfold visited_above in Hs'. split.
      + intros p [Hp Hnp]%elem_of_difference.
        apply elem_of_difference. split; [done|].
        intros Hin. apply Hnp, elem_of_union_r, Hs', Hin.
      + intros Hsub. assert (path ∈ dom (files E) ∖ V) as Hp.
        { apply elem_of_difference. split.
          - apply elem_of_dom. by rewrite Hfile.
          - intros Hin. apply Hout, Hs', Hin. }
        apply Hsub, elem_of_difference in Hp as [_ Hp].
        apply Hp, elem_of_union_l, elem_of_singleton. done.
    - intros di. apply spec_bind; [apply spec_lift|]. intros D'.
      apply spec_bind; [apply spec_lift|]. intros dl s' Hs'. done. }
  destruct (cache s !! key_factory E self path) as [data|]; [|by apply Han].
  repeat case_decide; [done|done|by apply Han].
Qed.
End Termination.

(** C7.  The recursive analysis terminates on every import graph, cyclic
    or not: fuel above the number of files outside the Visited Set always
    suffices for [load_deprecated_from_module], and fuel above the number
    of files for [memestra].  A module whose path is already in the
    Visited Set is not descended into: whatever the fuel left, the
    contribution of its imports is the empty list, no error is raised for
    it, and its analysis returns the names of its own decorated
    definitions and leaves the Visited Set as it was. *)
Theorem cycle_termination (E : collaborators) :
  (∀ self fuel name s,
     size (dom (files E) ∖ visited s) < fuel →
     load_deprecated_from_module E fuel self name s ≠ OutOfFuel) ∧
  (∀ persisted fd decorator file_path recursive,
     memestra E (S (size (dom (files E)))) persisted fd decorator
              file_path recursive ≠ OutOfFuel) ∧
  (∀ self fuel name s path m D,
     resolve_module E name (file_path self) = Some path →
     path ∈ visited s →
     untrusted E (cache s !! key_factory E self path) →
     files E !! path = Some (Parsed m) →
     collect_deprecated (decorator self) m = Ok D →
     ∃ dl : gset string,
       names_of m D = Ok dl ∧
       deprecated_imports_of (load_deprecated_from_module E fuel self)
         self path m (log_open path s) = Return [] (log_open path s) ∧
       load_deprecated_from_module E (S fuel) self name s =
       Return (Some dl)
         {| cache :=
              cache_put (Format_version E) (key_factory E self path)
                "memestra" (merge_sort String.le (elements dl)) (cache s);
            visited := visited s; warnings := warnings s;
            opened := opened s ++ [path] |}).
Proof.
  split; [|split].
  - intros self fuel name s Hsize Hoof.
    pose proof (load_visited_bound E self fuel name (visited s) Hsize s) as H.
    rewrite Hoof in H. apply H. by unfold visited_above.
  - intros persisted fd decorator file_path recursive. unfold memestra.
    case_decide; [|done]. destruct (fd_read fd) as [| |m]; try done.
    set (resolver := {| decorator := decorator |}).
    set (s0 := {| cache := persisted |}).
    pose proof (spec_visit_Module (visited_above ∅) False
                  (load_deprecated_from_module E (S (size (dom (files E))))
                     resolver) m) as Hv.
    assert (size (dom (files E) ∖ (∅ : gset string))
            < S (size (dom (files E)))) as Hsize
      by (rewrite difference_empty_L; lia).
    unfold bind. intros Hoof.
    specialize (Hv (λ name, load_visited_bound E resolver _ name ∅ Hsize)
                   resolver s0).
    destruct (visit_Module _ _ _ _); [done|done|].
    apply Hv. unfold visited_above. apply empty_subseteq.
  - intros self fuel name s path m D Hres Hin Hun Hfile Hcol.
    destruct (analyse_module_no_descent E
                (load_deprecated_from_module E fuel self) self path
                (key_factory E self path) s m D Hfile (or_intror Hin) Hcol)
      as (dl & Hdl & Han).
    exists dl. split; [done|]. split.
    + unfold deprecated_imports_of. simpl.
      rewrite bool_decide_eq_false_2; [by destruct (recursive self)|auto].
    + by rewrite (load_miss E fuel self name s path).
Qed.

(** ** How one run changes the cache, and what a second run sees *)

Section Replay.
Variable E : collaborators.
Variable self : ImportResolver.

Lemma cache_grows_refl c : cache_grows E self c c.
Proof. by split. Qed.

Lemma cache_grows_trans c1 c2 c3 :
  cache_grows E self c1 c2 → cache_grows E self c2 c3 →
  cache_grows E self c1 c3.
Proof.
  intros [H1 H1'] [H2 H2']. split.
  - intros k e Hk Hs. apply H2; [|done]. by apply H1.
  - intros k Hk. rewrite H2', H1'; done.
Qed.

Lemma untrusted_not_sticky e : untrusted E (Some e) → sticky E e → False.
Proof. intros Hun [?|?]; destruct (Hun e eq_refl); done. Qed.

Lemma steps_Return {A} (c : session → outcome A) s r s' :
  steps E self c → c s = Return r s' →
  cache_grows E self (cache s) (cache s').
Proof.
  intros Hc Hr. specialize (Hc (cache s) s (cache_grows_refl _)).
  by rewrite Hr in Hc.
Qed.

Lemma steps_load fuel name :
  steps E self (load_deprecated_from_module E fuel self name).
Proof.
  revert name. induction fuel as [|fuel IH]; intros name c0 s Hs; [done|].
  simpl.
  destruct (resolve_module E name (file_path self)) as [path|]; [|done].
  set (key := key_factory E self path).
  assert (untrusted E (cache s !! key) →
          match analyse_module E (load_deprecated_from_module E fuel self)
                  self path key s with
          | Return _ s' => cache_grows E self c0 (cache s')
          | _ => True
          end) as Han.
  { intros Hun. unfold analyse_module.
    destruct (files E !! path) as [[| |m]|] eqn:Hfile; try done.
    assert (∀ e, c0 !! key = Some e → sticky E e → False) as Hfree.
    { intros e He Hst. destruct Hs as [Hkeep _].
      rewrite (Hkeep key e He Hst) in Hun.
      by apply (untrusted_not_sticky e). }
    refine (spec_bind _ True _ _ _ _ (log_open path s) Hs).
    - clear s Hs Hun. intros s Hs. unfold deprecated_imports_of.
      destruct (_ && _); [|done].
      refine (spec_bind _ True _ _ _ _ (add_visited path s) Hs).
      + apply spec_visit_Module. intros name'. apply IH.
      + intros D. apply spec_ret.
    - intros di. apply spec_bind; [apply spec_lift|]. intros D.
      apply spec_bind; [apply spec_lift|]. intros dl s1 [Hkeep Honly].
      simpl. unfold cache_put. split.
      + intros k e He Hst. destruct (decide (key = k)) as [<-|Hne].
        * destruct (Hfree e He Hst).
        * rewrite lookup_insert_ne by done. by apply Hkeep.
      + intros k Hk. rewrite lookup_insert_ne; [by apply Honly|].
        intros <-. apply Hk. by exists path, m. }
  destruct (cache s !! key) as [data|] eqn:Hlook.
  - repeat case_decide; [done|done|].
    apply Han. by intros ? [= <-].
  - apply Han. by intros ?.
Qed.

Lemma steps_visit_Module fuel m :
  steps E self
    (visit_Module (load_deprecated_from_module E fuel self) m self).
Proof.
  intros c0. apply spec_visit_Module. intros name. apply steps_load.
Qed.

(** What a fresh analysis of a parsed module returns. *)
Lemma analyse_module_parsed load path key s m r s' :
  files E !! path = Some (Parsed m) →
  analyse_module E load self path key s = Return r s' →
  ∃ dl, r = Some dl ∧
    cache s' !! key =
      Some {| version := Format_version E; generator := "memestra";
              deprecated := merge_sort String.le (elements dl) |}.
Proof.
  intros Hfile. unfold analyse_module. rewrite Hfile. unfold bind, lift.
  destruct (deprecated_imports_of _ _ _ _ _) as [di s1| |]; [|done..].
  destruct (collect_deprecated _ _) as [D|]; [|done].
  destruct (names_of _ _) as [dl|]; [|done].
  intros [= <- <-]. exists dl. split; [done|].
  simpl. unfold cache_put. apply lookup_insert_eq.
Qed.

Lemma list_to_set_sorted_elements (X : gset string) :
  list_to_set (merge_sort String.le (elements X)) = X.
Proof.
  apply set_eq. intros x.
  by rewrite elem_of_list_to_set, merge_sort_Permutation, elem_of_elements.
Qed.

Variable cfin : gmap cache_key entry.

Lemma replays_ret {A} (a : A) : replays E self cfin (ret a) (ret a).
Proof. intros s r s' [= <- <-] _ t Ht. by exists t. Qed.

Lemma replays_lift {A} (x : result A) : replays E self cfin (lift x) (lift x).
Proof.
  intros s r s'. unfold lift. destruct x; [|done].
  intros [= <- <-] _ t Ht. by exists t.
Qed.

Lemma replays_bind {A B} (c1 c2 : session → outcome A)
    (f1 f2 : A → session → outcome B) :
  replays E self cfin c1 c2 →
  (∀ a, replays E self cfin (f1 a) (f2 a)) →
  (∀ a, steps E self (f1 a)) →
  replays E self cfin (bind c1 f1) (bind c2 f2).
Proof.
  intros Hc Hf Hsteps s r s''. unfold bind.
  destruct (c1 s) as [a s'| |] eqn:H1; [|done..].
  intros H2 Hfin t Ht.
  destruct (Hc s a s' H1) with (t := t) as (t' & -> & Ht'); [|done|].
  { eapply cache_grows_trans; [|exact Hfin].
    by eapply steps_Return. }
  by apply (Hf a s' r s'').
Qed.

Lemma replays_for_each {A B} (body1 body2 : A → B → session → outcome B)
    (l : list A) (acc : B) :
  (∀ x acc, replays E self cfin (body1 x acc) (body2 x acc)) →
  (∀ x acc, steps E self (body1 x acc)) →
  replays E self cfin (for_each body1 l acc) (for_each body2 l acc).
Proof.
  intros Hbody Hsteps. revert acc.
  induction l as [|x l IH]; intros acc; simpl.
  - apply replays_ret.
  - apply replays_bind; [apply Hbody|apply IH|].
    intros acc' c0. apply spec_for_each. intros y acc''. apply Hsteps.
Qed.

Hypothesis key_factory_inj :
  ∀ p q, key_factory E self p = key_factory E self q → p = q.

Lemma replays_load fuel fuel' name :
  replays E self cfin (load_deprecated_from_module E fuel self name)
    (load_deprecated_from_module E (S fuel') self name).
Proof.
  intros s r s' Hrun [Hkeep Honly] t [Hcache Hopened].
  destruct fuel as [|fuel]; [done|]. simpl in Hrun. simpl.
  destruct (resolve_module E name (file_path self)) as [path|] eqn:Hres.
  2: { injection Hrun as <- <-. by exists t. }
  set (key := key_factory E self path) in *.
  assert (untrusted E (cache s !! key) →
          analyse_module E (load_deprecated_from_module E fuel self)
            self path key s = Return r s' →
          ∃ t',
            match cache t !! key with
            | Some data =>
                if decide (version data = Format_version E)
                then Return (Some (list_to_set (deprecated data))) t
                else if decide (generator data = "manual")
                     then Return (Some ∅)
                            (warn (stale_manual_warning name key) t)
                     else analyse_module E
                            (load_deprecated_from_module E fuel' self)
                            self path key t
            | None => analyse_module E
                        (load_deprecated_from_module E fuel' self)
                        self path key t
            end = Return r t' ∧ warm E cfin t') as Han.
  { intros Hun Hrun'.
    destruct (files E !! path) as [[| |m]|] eqn:Hfile.
    - unfold analyse_module in Hrun'. rewrite Hfile in Hrun'.
      injection Hrun' as <- <-.
      assert (cache t !! key = cache s !! key) as Hsame.
      { rewrite Hcache. apply Honly. intros (p & m & Hp & Hk).
        apply key_factory_inj in Hk as ->. congruence. }
      exists (log_open path t). rewrite Hsame.
      assert (analyse_module E (load_deprecated_from_module E fuel' self)
                self path key t = Return (Some ∅) (log_open path t)) as Hb
        by (unfold analyse_module; by rewrite Hfile).
      split.
      + destruct (cache s !! key) as [data|]; [|done].
        destruct (Hun data eq_refl). by rewrite !decide_False.
      + split; [done|]. simpl.
        intros p [Hp| ->%list_elem_of_singleton]%elem_of_app;
          [by apply Hopened|done].
    - unfold analyse_module in Hrun'. by rewrite Hfile in Hrun'.
    - apply (analyse_module_parsed _ _ _ _ m) in Hrun' as (dl & -> & Hstored);
        [|done].
      exists t. rewrite Hcache.
      rewrite (Hkeep key _ Hstored) by (by left). simpl.
      rewrite decide_True by done.
      by rewrite list_to_set_sorted_elements.
    - unfold analyse_module in Hrun'. by rewrite Hfile in Hrun'. }
  destruct (cache s !! key) as [data|] eqn:Hlook.
  - destruct (decide (version data = Format_version E)) as [Hv|Hv].
    + injection Hrun as <- <-. exists t.
      rewrite Hcache, (Hkeep key data Hlook) by (by left).
      by rewrite decide_True.
    + destruct (decide (generator data = "manual")) as [Hg|Hg].
      * injection Hrun as <- <-.
        exists (warn (stale_manual_warning name key) t).
        rewrite Hcache, (Hkeep key data Hlook) by (by right).
        rewrite decide_False by done. rewrite decide_True by done.
        done.
      * apply Han; [|done]. by intros ? [= <-].
  - apply Han; [|done]. by intros ?.
Qed.

Lemma replays_visit_Module fuel fuel' m :
  replays E self cfin
    (visit_Module (load_deprecated_from_module E fuel self) m self)
    (visit_Module (load_deprecated_from_module E (S fuel') self) m self).
Proof.
  unfold visit_Module.
  apply replays_bind; [apply replays_lift| |].
  - intros D. apply replays_for_each.
    + intros n acc. unfold visit_node.
      destruct (kind m n); try apply replays_ret.
      * apply replays_for_each.
        -- intros a acc'. unfold visit_Import_alias.
           apply replays_bind; [apply replays_lift| |].
           ++ intros nm. apply replays_bind; [apply replays_load| |].
              ** intros [found|]; [apply replays_lift|apply replays_ret].
              ** intros [found|] c0; [apply spec_lift|apply spec_ret].
           ++ intros nm c0. apply spec_bind; [apply steps_load|].
              intros [found|]; [apply spec_lift|apply spec_ret].
        -- intros a acc' c0. apply spec_visit_Import_alias. intros nm.
           apply steps_load.
      * unfold visit_ImportFrom.
        apply replays_bind; [apply replays_load| |].
        -- intros [found|]; [|apply replays_ret].
           apply replays_bind; [apply replays_lift| |].
           ++ intros aliases. apply replays_lift.
           ++ intros aliases c0. apply spec_lift.
        -- intros [found|] c0; [|apply spec_ret].
           apply spec_bind; [apply spec_lift|]. intros aliases.
           apply spec_lift.
    + intros n acc c0. unfold visit_node.
      destruct (kind m n); try apply spec_ret.
      * apply spec_visit_Import. intros nm. apply steps_load.
      * apply spec_visit_ImportFrom. intros nm. apply steps_load.
  - intros D c0. apply spec_for_each. intros n acc. unfold visit_node.
    destruct (kind m n); try apply spec_ret.
    + apply spec_visit_Import. intros nm. apply steps_load.
    + apply spec_visit_ImportFrom. intros nm. apply steps_load.
Qed.
End Replay.

(** C8.  Let a run of [memestra] return, and let cache keys tell module
    paths apart.  A second run on the cache the first one left returns the
    same list and leaves the cache as it is.  The second run re-parses and
    re-analyses no module: the only files it opens are imported modules
    whose source cannot be decoded, which are never cached. *)
Theorem warm_cache_idempotence (E : collaborators) (fuel fuel' : nat)
    (persisted : gmap cache_key entry) (fd : file_descriptor)
    (decorator : list string) (file_path : option string) (recursive : bool)
    (out : list finding) (s1 : session) :
  (∀ p q,
     (if recursive then RecursiveCacheKeyFactory E else CacheKeyFactory E) p =
     (if recursive then RecursiveCacheKeyFactory E else CacheKeyFactory E) q →
     p = q) →
  memestra E fuel persisted fd decorator file_path recursive = Return out s1 →
  ∃ s2,
    memestra E (S fuel') (cache s1) fd decorator file_path recursive
    = Return out s2 ∧
    cache s2 = cache s1 ∧
    ∀ p, p ∈ opened s2 → files E !! p = Some Undecodable.
Proof.
  intros Hinj. unfold memestra. case_decide; [|done].
  destruct (fd_read fd) as [| |m]; try done.
  set (resolver := {| decorator := decorator |}).
  unfold bind.
  destruct (visit_Module _ m resolver _) as [D s|e|] eqn:Hrun; [|done..].
  intros [= <- <-].
  destruct (replays_visit_Module E resolver (cache s) Hinj fuel fuel' m
              _ _ _ Hrun (cache_grows_refl _ _ _)
              {| cache := cache s; visited := ∅; warnings := [];
                 opened := [] |})
    as (t' & -> & Hcache & Hopened).
  { split; [done|]. simpl. intros p Hp. by apply elem_of_nil in Hp. }
  exists t'. done.
Qed.

(** * The statements at concrete programs *)

Section Concrete.
Import Examples.
Open Scope positive_scope.
Open Scope list_scope.

Lemma untrusted_None E : untrusted E None.
Proof. by intros data. Qed.



(** In [mod_nested] the call of [f] inside the deprecated
    [g] gives no triple, and the call at module level gives one. *)
Lemma no_self_flagging_witness :
  (∀ D' c, (D', 12, c) ∉ get_deprecated_users mod_nested {[4; 7]}) ∧
  ∃ c, filter (λ t, t.1 = (4, 15))
         (get_deprecated_users mod_nested {[4; 7]}) = [(4, 15, c)] ∧
       c = 15.
Proof.
  split.
  - apply (no_self_flagging mod_nested {[4; 7]} 4 12).
    + apply elem_of_elements, list_elem_of_In. vm_compute. auto.
    + apply list_elem_of_In. vm_compute. auto.
    + apply (bool_decide_unpack _). vm_compute. exact I.
    + exists 7. split.
      * apply list_elem_of_In. vm_compute. auto.
      * apply elem_of_elements, list_elem_of_In. vm_compute. auto.
  - destruct (no_self_flagging mod_nested {[4; 7]} 4 15) as [_ Hone].
    + apply elem_of_elements, list_elem_of_In. vm_compute. auto.
    + apply list_elem_of_In. vm_compute. auto.
    + apply (bool_decide_unpack _). vm_compute. exact I.
    + destruct Hone as (c & Hc & _ & Hu).
      * intros f Hf. vm_compute in Hf. by apply elem_of_nil in Hf.
      * exists c. split; [exact Hc|]. by apply Hu.
Defined.

(** Importing [bin.so], which cannot be decoded, and [bad.py], which
    does not parse, in a non-recursive scan. *)
Lemma undecodable_import_is_empty_witness :
  load_deprecated_from_module world 1 (resolver_of false) (Some "bin")
    (session_of ∅)
  = Return (Some ∅)
      {| cache := ∅; visited := ∅; warnings := [];
         opened := [] ++ ["bin.so"] |} ∧
  load_deprecated_from_module world 1 (resolver_of false) (Some "bad")
    (session_of ∅)
  = Raise SyntaxError.
Proof.
  split.
  - apply (undecodable_import_is_empty world 0 (resolver_of false)
             "bin" (session_of ∅) "bin.so");
      [reflexivity|reflexivity|apply untrusted_None|reflexivity].
  - apply (undecodable_import_is_empty world 0 (resolver_of false)
             "bad" (session_of ∅) "bad.py");
      [reflexivity|reflexivity|apply untrusted_None|reflexivity].
Defined.

(** A malformed source is not handled as an undecodable one is:
    importing [bad.py] raises. *)
Lemma malformed_import_raises :
  ¬ (∀ (E : collaborators) (fuel : nat) (self : ImportResolver)
       (name : option string) (s : session) (path : string),
       resolve_module E name (file_path self) = Some path →
       files E !! path = Some Undecodable ∨
       files E !! path = Some Malformed →
       ∃ s', load_deprecated_from_module E (S fuel) self name s
             = Return (Some ∅) s').
Proof.
  intros Hclaim.
  destruct (Hclaim world 0%nat (resolver_of false) (Some "bad")
              (session_of ∅) "bad.py") as [s' Hs'].
  - reflexivity.
  - right. reflexivity.
  - vm_compute in Hs'. discriminate Hs'.
Qed.




(** C6 fails on the code.  With the decorator path
    [deprecated.deprecated], the binding of
    [from deprecated import deprecated] names the last segment, its
    import statement names the path without its last segment, and the
    use [@deprecated] has the definition [g] immediately above it; yet
    the Deprecated Set is empty, because the name is also the first
    segment and the prefix test of [collect_deprecated] takes the binding
    before the final-segment test is tried. *)
Theorem final_segment_shadowed_by_prefix :
  let decorator := ["deprecated"; "deprecated"] in
  let m := mod_from "deprecated" "deprecated" in
  3 ∈ locals m ∧
  kind m 3 = alias "deprecated" ∧
  split_dot "deprecated" = last_slice decorator ∧
  last (parents m 3) = Some 2 ∧
  kind m 2 = ImportFrom (Some (join_dot (but_last_slice decorator))) [3] ∧
  5 ∈ users m 3 ∧
  last (parents m 5) = Some 4 ∧
  is_defs (kind m 4) = true ∧
  collect_deprecated decorator m = Ok ∅ ∧
  memestra world 1 ∅ (fd_of "c.py" m) decorator None false
  = Return [] (session_of ∅).
Proof.
  repeat split; try reflexivity.
  - apply list_elem_of_In. vm_compute. auto.
  - apply list_elem_of_In. vm_compute. auto.
Qed.

(** The recursive scan of [ca.py], which imports [cb.py], which imports
    [ca.py]. *)
Lemma cycle_termination_witness :
  memestra world (S (size (dom (files world)))) ∅
    (fd_of "ca.py" (mod_import "cb")) d_dep None true ≠ OutOfFuel ∧
  load_deprecated_from_module world 6 (resolver_of true) (Some "cb")
    (session_of ∅) ≠ OutOfFuel ∧
  ∃ dl : gset string,
    names_of (mod_import "ca") ∅ = Ok dl ∧
    deprecated_imports_of
      (load_deprecated_from_module world 0 (resolver_of true))
      (resolver_of true) "cb.py" (mod_import "ca")
      (log_open "cb.py" (add_visited "cb.py" (session_of ∅)))
    = Return [] (log_open "cb.py" (add_visited "cb.py" (session_of ∅))) ∧
    load_deprecated_from_module world 1 (resolver_of true) (Some "cb")
      (add_visited "cb.py" (session_of ∅))
    = Return (Some dl)
        {| cache :=
             cache_put 1 ("cb.py", "recursive") "memestra"
               (merge_sort String.le (elements dl)) ∅;
           visited := {["cb.py"]} ∪ ∅; warnings := [];
           opened := [] ++ ["cb.py"] |}.
Proof.
  split; [|split].
  - apply (cycle_termination world).
  - apply (cycle_termination world).
    apply (bool_decide_unpack _). vm_compute. exact I.
  - apply (proj2 (proj2 (cycle_termination world)) (resolver_of true) 0%nat
             (Some "cb") (add_visited "cb.py" (session_of ∅)) "cb.py"
             (mod_import "ca") ∅).
    + reflexivity.
    + apply elem_of_elements, list_elem_of_In. vm_compute. auto.
    + apply untrusted_None.
    + reflexivity.
    + vm_compute. reflexivity.
Defined.

(** Two non-recursive runs on [b.py]. *)
Lemma warm_cache_idempotence_witness :
  ∃ s2,
    memestra world 1
      (cache (session_after
                (memestra world 1 ∅ (fd_of "b.py" mod_b) d_dep None false)))
      (fd_of "b.py" mod_b) d_dep None false
    = Return [("h", "b.py", 2%Z, 0%Z)] s2 ∧
    cache s2 =
    cache (session_after
             (memestra world 1 ∅ (fd_of "b.py" mod_b) d_dep None false)) ∧
    ∀ p, p ∈ opened s2 → files world !! p = Some Undecodable.
Proof.
  apply (warm_cache_idempotence world 1 0 ∅ (fd_of "b.py" mod_b) d_dep
           None false).
  - intros p q Hpq. by injection Hpq.
  - vm_compute. reflexivity.
Defined.

(** A second run can open a file: for a module that imports [bin.so] the
    first run returns and caches nothing for it, so the second run is not
    answered by the cache and opens the file again. *)
Lemma undecodable_import_reopened :
  ¬ (∀ (E : collaborators) (fuel fuel' : nat)
       (persisted : gmap cache_key entry) (fd : file_descriptor)
       (decorator : list string) (file_path : option string)
       (recursive : bool) (out : list finding) (s1 : session),
       (∀ p q,
          (if recursive then RecursiveCacheKeyFactory E
           else CacheKeyFactory E) p =
          (if recursive then RecursiveCacheKeyFactory E
           else CacheKeyFactory E) q → p = q) →
       memestra E fuel persisted fd decorator file_path recursive
       = Return out s1 →
       ∃ s2,
         memestra E (S fuel') (cache s1) fd decorator file_path recursive
         = Return out s2 ∧
         opened s2 = []).
Proof.
  intros Hclaim.
  destruct (Hclaim world 1%nat 0%nat ∅ (fd_of "t.py" (mod_import "bin"))
              d_dep None false []
              (session_after
                 (memestra world 1 ∅ (fd_of "t.py" (mod_import "bin"))
                    d_dep None false)))
    as (s2 & Hrun & Hopened).
  - intros p q Hpq. by injection Hpq.
  - vm_compute. reflexivity.
  - vm_compute in Hrun. injection Hrun as <-.
    vm_compute in Hopened. discriminate Hopened.
Qed.

(** The cache entry written by the fresh analysis of [a.py], and the
    fresh load of [bin.so], which writes none. *)
Lemma cache_write_policy_witness :
  (∃ (l : list string) (s' : session),
     load_deprecated_from_module world 1 (resolver_of false) (Some "a")
       (session_of ∅) = Return (Some {["h"]}) s' ∧
     cache s' !! key_factory world (resolver_of false) "a.py" =
       Some {| version := 1; generator := "memestra"; deprecated := l |} ∧
     StronglySorted String.le l ∧ NoDup l ∧
     (∀ x, x ∈ l ↔ x ∈ ({["h"]} : gset string)) ∧
     (({["h"]} : gset string) = ∅ → l = [])) ∧
  (∃ s' : session,
     load_deprecated_from_module world 1 (resolver_of false) (Some "bin")
       (session_of ∅) = Return (Some ∅) s' ∧
     cache s' = cache (session_of ∅)).
Proof.
  split.
  - destruct (cache_write_policy world 0 (resolver_of false) "a"
                (session_of ∅) "a.py") as [Hparsed _];
      [reflexivity|apply untrusted_None|].
    apply (Hparsed mod_a [] (log_open "a.py" (session_of ∅)) {[4]} {["h"]});
      [reflexivity|reflexivity| |]; vm_compute; reflexivity.
  - destruct (cache_write_policy world 0 (resolver_of false) "bin"
                (session_of ∅) "bin.so") as [_ Hundecodable];
      [reflexivity|apply untrusted_None|].
    apply Hundecodable; reflexivity.
Defined.

(** Not every fresh computation stores an entry: [bin.so] has no cache
    entry, its load is computed afresh and returns, and the cache holds
    no entry for it afterwards. *)
Lemma undecodable_import_not_cached :
  ¬ (∀ (E : collaborators) (fuel : nat) (self : ImportResolver)
       (name : option string) (s s' : session) (path : string)
       (dl : gset string),
       resolve_module E name (file_path self) = Some path →
       untrusted E (cache s !! key_factory E self path) →
       load_deprecated_from_module E (S fuel) self name s
       = Return (Some dl) s' →
       ∃ l, cache s' !! key_factory E self path =
            Some {| version := Format_version E; generator := "memestra";
                    deprecated := l |}).
Proof.
  intros Hclaim.
  destruct (Hclaim world 0%nat (resolver_of false) (Some "bin")
              (session_of ∅) (log_open "bin.so" (session_of ∅)) "bin.so" ∅)
    as [l Hl].
  - reflexivity.
  - apply untrusted_None.
  - reflexivity.
  - vm_compute in Hl. discriminate Hl.
Qed.

End Concrete.

(** * Further properties *)

(** ** The decorator matcher as a whole *)

Section MatcherWhole.
Variable decorator : list string.
Variable m : module_ast.

Lemma walk_attrs_rooted attrs up root :
  kind m root = Module →
  (walk_attrs m attrs (up ++ [root])).1 ≠ [] ∨
  (walk_attrs m attrs (up ++ [root])).2 ≠ [].
Proof.
  intros Hroot. revert attrs. induction up as [|parent up IH]; intros attrs.
  - destruct attrs as [|attr attrs]; simpl; [by right|].
    rewrite Hroot. by left.
  - destruct attrs as [|attr attrs]; simpl; [by right|].
    destruct (kind m parent); try by left.
    case_decide; [apply IH|by left].
Qed.

Lemma prefix_target_rooted nbterms user :
  rooted m user → ∃ t, prefix_target decorator m nbterms user = Ok t.
Proof.
  unfold rooted, prefix_target.
  destruct (parents m user) as [|root rest]; [done|]. intros Hroot.
  rewrite reverse_cons.
  pose proof (walk_attrs_rooted (drop nbterms decorator) (reverse rest)
                root Hroot) as Hw.
  destruct (walk_attrs m _ _) as [attrs up]. simpl in Hw.
  destruct attrs; [|by eexists]. destruct up as [|top up].
  - by destruct Hw.
  - destruct (is_defs (kind m top)); by eexists.
Qed.

Lemma last_rooted n : rooted m n → ∃ parent, last (parents m n) = Some parent.
Proof.
  unfold rooted. destruct (parents m n) as [|root rest] eqn:Hp; [done|].
  intros _. destruct (last (root :: rest)) eqn:Hl; [by eexists|].
  by apply last_None in Hl.
Qed.

Lemma final_target_rooted user :
  rooted m user → ∃ t, final_target m user = Ok t.
Proof.
  intros [parent Hl]%last_rooted. unfold final_target, last_item.
  rewrite Hl. simpl. destruct (is_defs (kind m parent)); by eexists.
Qed.

Lemma add_targets_total target us D0 :
  (∀ u, u ∈ us → ∃ t, target u = Ok t) →
  ∃ D, add_targets target us D0 = Ok D.
Proof.
  revert D0. induction us as [|u us IH]; intros D0 Hall; simpl;
    [by eexists|].
  destruct (Hall u) as [t ->]; [left|]. simpl.
  apply IH. intros u' Hu'. apply Hall. by right.
Qed.
End MatcherWhole.

(** X1.  The set [collect_deprecated] returns holds exactly the nodes that
    some use of some local import binding contributes: each member is a
    function, class or async-function definition that sits directly above
    a matched attribute chain (prefix mode) or directly above the use
    (final-segment mode), and every such node is a member. *)
Theorem collect_deprecated_exact (decorator : list string) (m : module_ast)
    (D : gset node) :
  collect_deprecated decorator m = Ok D →
  ∀ p, p ∈ D ↔
       ∃ dlocal user,
         dlocal ∈ locals m ∧ contributes decorator m dlocal user p.
Proof.
  intros Hc p. rewrite (collect_locals_exact _ _ _ _ _ Hc p).
  split; [|by right]. intros [Hp|?]; [|done].
  by apply not_elem_of_empty in Hp.
Qed.

(** X2.  On a tree where the ancestors of every import binding and of
    every use of one start at the [Module] node, [collect_deprecated]
    raises no exception: neither [parents[-1]] ever indexes an empty
    list. *)
Theorem collect_deprecated_total (decorator : list string) (m : module_ast) :
  (∀ dlocal name, dlocal ∈ locals m → kind m dlocal = alias name →
     rooted m dlocal ∧ ∀ user, user ∈ users m dlocal → rooted m user) →
  ∃ D, collect_deprecated decorator m = Ok D.
Proof.
  unfold collect_deprecated. generalize (∅ : gset node) as D0.
  induction (locals m) as [|dlocal ls IH]; intros D0 Hwf; simpl;
    [by eexists|].
  assert (∃ D1, collect_local decorator m dlocal D0 = Ok D1) as [D1 ->].
  { unfold collect_local.
    destruct (kind m dlocal) as [| | | | | |name| | |] eqn:Hk;
      try by eexists.
    destruct (Hwf dlocal name) as [Hroot Husers]; [left|done|].
    case_decide.
    - apply add_targets_total. intros u Hu.
      by apply prefix_target_rooted, Husers.
    - case_decide; [|by eexists].
      destruct (last_rooted m dlocal Hroot) as [parent Hl].
      unfold last_item. rewrite Hl. simpl.
      destruct (kind m parent); try by eexists.
      case_decide; [|by eexists].
      apply add_targets_total. intros u Hu.
      by apply final_target_rooted, Husers. }
  simpl. apply IH. intros dl name Hin. apply Hwf. by right.
Qed.

(** ** The use-site propagator as a whole *)

(** X3.  Every triple [(D, u, c)] that [get_deprecated_users] emits is
    genuine: [D] is in the Deprecated Set, [u] reads [D], no function,
    class or async-function ancestor of [u] is deprecated, and [c] is the
    innermost such ancestor of [u], or [u] itself when it has none. *)
Theorem deprecated_users_sound (m : module_ast) (deprecated : gset node)
    (D u c : node) :
  (D, u, c) ∈ get_deprecated_users m deprecated →
  let enclosing := filter (λ n, is_defs (kind m n)) (parents m u) in
  D ∈ deprecated ∧ u ∈ users m D ∧
  (∀ f, f ∈ parents m u → is_defs (kind m f) = true → f ∉ deprecated) ∧
  (∀ f, last enclosing = Some f → c = f ∧ f ∉ deprecated) ∧
  (enclosing = [] → c = u).
Proof.
  intros Hin enclosing.
  apply elem_of_flat_map in Hin as (D' & HD%elem_of_elements & Hin).
  apply elem_of_flat_map in Hin as (u' & Hu & Hin).
  unfold deprecated_use in Hin.
  destruct (decide _) as [|Hfree]; [by apply elem_of_nil in Hin|].
  apply list_elem_of_singleton in Hin. injection Hin as -> -> ->.
  assert (∀ f, f ∈ enclosing → f ∉ deprecated) as Hclean.
  { intros f Hf Hd. apply Hfree, Exists_exists. eauto. }
  split; [done|]. split; [done|]. split; [|split].
  - intros f Hf Hdef. apply Hclean, list_elem_of_filter.
    split; [by rewrite Hdef|done].
  - intros f Hlast. split.
    + unfold user_ancestors. fold enclosing. by rewrite Hlast.
    + apply Hclean. apply last_Some in Hlast as [l' ->].
      apply elem_of_app. right. left.
  - intros Hnil. unfold user_ancestors. fold enclosing. by rewrite Hnil.
Qed.

(** X4.  The list [memestra] returns does not depend on the order in which
    the Deprecated Set, a Python set of node objects, is iterated:
    whatever order [get_deprecated_users] enumerates it in, sorting the
    formatted triples gives the same list. *)
Theorem output_independent_of_set_order (E : collaborators)
    (fd : file_descriptor) (m : module_ast) (deprecated : gset node)
    (order : list node) :
  order ≡ₚ elements deprecated →
  merge_sort finding_le
    (format_use E fd m <$>
       flat_map (λ deprecated_node,
                   flat_map (deprecated_use m deprecated deprecated_node)
                            (users m deprecated_node)) order)
  = merge_sort finding_le
      (format_use E fd m <$> get_deprecated_users m deprecated).
Proof.
  intros Horder.
  apply (Sorted_unique finding_le (AntiSymm0 := finding_le_antisymm)).
  - apply Sorted_merge_sort; apply _.
  - apply Sorted_merge_sort; apply _.
  - rewrite !merge_sort_Permutation. apply fmap_Permutation.
    unfold get_deprecated_users. by apply Permutation_flat_map.
Qed.

(** ** The visitor *)

Section VisitorWhole.
Variable load : option string → session → outcome (option (gset string)).
Variable m : module_ast.

Lemma visit_Import_users_exact (found : gset string) (us : list node)
    (deprecated deprecated' : gset node) :
  rfor_each (visit_Import_user m found) us deprecated = Ok deprecated' →
  ∀ p, p ∈ deprecated' ↔
       p ∈ deprecated ∨
       ∃ u v attr, u ∈ us ∧ last (parents m u) = Some p ∧
                   kind m p = Attribute v attr ∧ attr ∈ found.
Proof.
  revert deprecated. induction us as [|u us IH]; intros deprecated; simpl.
  - intros [= <-] p. split; [by left|].
    intros [?|(? & ? & ? & Hin & _)]; [done|]. by apply elem_of_nil in Hin.
  - unfold visit_Import_user at 1, last_item.
    destruct (last (parents m u)) as [parent|] eqn:Hl; simpl; [|done].
    intros Hrest p.
    assert (∀ d, rfor_each (visit_Import_user m found) us d = Ok deprecated' →
              (∀ q, q ∈ d ↔ q ∈ deprecated ∨
                 (q = parent ∧ ∃ v attr, kind m parent = Attribute v attr ∧
                                         attr ∈ found)) →
              p ∈ deprecated' ↔
              p ∈ deprecated ∨
              ∃ u0 v attr, u0 ∈ u :: us ∧ last (parents m u0) = Some p ∧
                           kind m p = Attribute v attr ∧ attr ∈ found)
      as Hstep.
    { intros d Hd Hq. rewrite (IH d Hd p), Hq. split.
      - intros [[?|(-> & v & attr & Hk & Ha)]|(u0 & v & attr & Hu & H)].
        + by left.
        + right. exists u, v, attr. split; [left|done].
        + right. exists u0, v, attr. split; [by right|done].
      - intros [?|(u0 & v & attr & [->|Hu]%elem_of_cons & Hp & Hk & Ha)].
        + by left; left.
        + rewrite Hl in Hp. injection Hp as ->. left; right.
          split; [done|]. by exists v, attr.
        + right. by exists u0, v, attr. }
    destruct (kind m parent) as [| | | |v attr| | | | |] eqn:Hk;
      try (apply (Hstep deprecated Hrest); intros q; split; [by left|];
           by intros [?|(_ & ? & ? & ? & _)]).
    destruct (decide (attr ∈ found)) as [Ha|Ha].
    + apply (Hstep _ Hrest). intros q. rewrite elem_of_union, elem_of_singleton.
      split.
      * intros [->|?]; [right|by left]. split; [done|]. by exists v, attr.
      * intros [?|[-> _]]; [by right|by left].
    + apply (Hstep _ Hrest). intros q. split; [by left|].
      intros [?|(_ & v' & attr' & [= <- <-] & ?)]; done.
Qed.

Lemma visit_Import_users_total (found : gset string) (us : list node)
    (deprecated : gset node) :
  (∀ u, u ∈ us → parents m u ≠ []) →
  ∃ deprecated',
    rfor_each (visit_Import_user m found) us deprecated = Ok deprecated'.
Proof.
  revert deprecated. induction us as [|u us IH]; intros deprecated Hne; simpl;
    [by eexists|].
  unfold visit_Import_user at 1, last_item.
  destruct (last (parents m u)) as [parent|] eqn:Hl.
  - simpl. destruct (kind m parent); try case_decide;
      apply IH; intros u' Hu'; apply Hne; by right.
  - apply last_None in Hl. destruct (Hne u); [left|done].
Qed.

Lemma for_each_skip {A B} (body : A → B → session → outcome B)
    (l : list A) (acc : B) (s : session) :
  (∀ x, x ∈ l → body x acc s = Return acc s) →
  for_each body l acc s = Return acc s.
Proof.
  induction l as [|x l IH]; intros Hskip; simpl; [done|].
  unfold bind. rewrite Hskip by left. apply IH.
  intros y Hy. apply Hskip. by right.
Qed.
End VisitorWhole.

(** X5.  For [import name], once the module is loaded with the deprecated
    names [found], the visitor adds exactly the attribute accesses
    [alias.attr] that sit directly above a use of the alias and whose
    [attr] is in [found]; a use that is not such an attribute access adds
    nothing.  It raises no exception as long as every use has a
    parent. *)
Theorem visit_Import_alias_exact
    (load : option string → session → outcome (option (gset string)))
    (m : module_ast) (a : node) (name : string) (deprecated : gset node)
    (s s' : session) (found : gset string) :
  kind m a = alias name →
  load (Some name) s = Return (Some found) s' →
  (∀ u, u ∈ users m a → parents m u ≠ []) →
  ∃ deprecated',
    visit_Import_alias load m a deprecated s = Return deprecated' s' ∧
    ∀ p, p ∈ deprecated' ↔
         p ∈ deprecated ∨
         ∃ u v attr, u ∈ users m a ∧ last (parents m u) = Some p ∧
                     kind m p = Attribute v attr ∧ attr ∈ found.
Proof.
  intros Hk Hload Hparents.
  destruct (visit_Import_users_total m found (users m a) deprecated Hparents)
    as [dep' Hloop].
  exists dep'. split.
  - unfold visit_Import_alias, bind, lift. rewrite Hk. simpl.
    by rewrite Hload, Hloop.
  - by apply visit_Import_users_exact.
Qed.

(** X6.  For [from module import ...], once the module is loaded with the
    deprecated names [found], the visitor adds exactly the uses of the
    aliases that import a name of [found], whatever the shape of the use;
    when a name is imported twice, [aliases.index] selects the first
    alias only. *)
Theorem visit_ImportFrom_exact
    (load : option string → session → outcome (option (gset string)))
    (m : module_ast) (module : option string) (names : list node)
    (aliases : list string) (deprecated : gset node) (s s' : session)
    (found : gset string) :
  load module s = Return (Some found) s' →
  rmap (λ a, name_of (kind m a)) names = Ok aliases →
  ∃ deprecated',
    visit_ImportFrom load m module names deprecated s
    = Return deprecated' s' ∧
    ∀ p, p ∈ deprecated' ↔
         p ∈ deprecated ∨
         ∃ name index a, name ∈ found ∧ index_of name aliases = Some index ∧
                         names !! index = Some a ∧ p ∈ users m a.
Proof.
  intros Hload Hal.
  destruct (visit_ImportFrom_names_Ok m aliases names (elements found)
              deprecated (rmap_length _ _ _ Hal))
    as (dep' & Hloop & _).
  exists dep'. split.
  - unfold visit_ImportFrom, bind, lift. by rewrite Hload, Hal, Hloop.
  - intros p.
    rewrite (visit_ImportFrom_names_exact m _ _ _ _ _ Hloop p).
    by setoid_rewrite elem_of_elements.
Qed.

(** X7.  An import statement that names its module, [import name] or
    [from name import ...], is skipped when [resolve_module] does not
    find the module: the Deprecated Set, the cache and the rest of the
    session are left as they were, and no exception is raised. *)
Theorem unresolvable_import_is_skipped (E : collaborators) (fuel : nat)
    (self : ImportResolver) (m : module_ast) (n : node)
    (deprecated : gset node) (s : session) :
  match kind m n with
  | Import names =>
      ∀ a, a ∈ names →
        ∃ name, kind m a = alias name ∧
                resolve_module E (Some name) (file_path self) = None
  | ImportFrom module _ =>
      ∃ name, module = Some name ∧
              resolve_module E (Some name) (file_path self) = None
  | _ => True
  end →
  visit_node (load_deprecated_from_module E (S fuel) self) m n deprecated s
  = Return deprecated s.
Proof.
  unfold visit_node. destruct (kind m n) as [| | | | | | |names|module names|];
    try done.
  - intros Hnames. unfold visit_Import. apply for_each_skip.
    intros a Ha. destruct (Hnames a Ha) as (name & Hk & Hres).
    unfold visit_Import_alias, bind, lift. rewrite Hk. simpl. by rewrite Hres.
  - intros (name & -> & Hres). unfold visit_ImportFrom, bind. simpl.
    by rewrite Hres.
Qed.

(** X8.  A module that has no import statement is analysed on its own:
    [memestra] returns the sorted uses of the definitions the decorator
    matcher finds, with any amount of fuel and either value of
    [recursive], reads no cache entry, writes none and opens no file. *)
Theorem scan_without_imports (E : collaborators) (fuel : nat)
    (persisted : gmap cache_key entry) (fd : file_descriptor)
    (m : module_ast) (decorator : list string) (file_path : option string)
    (recursive : bool) (D : gset node) :
  1 < length decorator →
  fd_read fd = Parsed m →
  (∀ n, n ∈ preorder m →
     match kind m n with Import _ | ImportFrom _ _ => False | _ => True end) →
  collect_deprecated decorator m = Ok D →
  memestra E fuel persisted fd decorator file_path recursive
  = Return
      (merge_sort finding_le (format_use E fd m <$> get_deprecated_users m D))
      {| cache := persisted; visited := ∅; warnings := []; opened := [] |}.
Proof.
  intros Hlen Hread Hplain Hcol. unfold memestra.
  rewrite decide_True by done. rewrite Hread.
  unfold bind at 1. unfold visit_Module, bind at 1, lift. simpl.
  rewrite Hcol. rewrite for_each_skip; [done|].
  intros n Hn. specialize (Hplain n Hn). unfold visit_node.
  by destruct (kind m n).
Qed.

(** ** Invariants of a whole run *)

Section RunInvariant.
Variable E : collaborators.
Variable self : ImportResolver.
Variable P : session → Prop.

Hypothesis P_warn :
  ∀ s key data msg,
    P s → cache s !! key = Some data →
    version data ≠ Format_version E → generator data = "manual" →
    P (warn msg s).
Hypothesis P_open :
  ∀ s path src, P s → files E !! path = Some src → P (log_open path s).
Hypothesis P_visit :
  ∀ s path m,
    P s → files E !! path = Some (Parsed m) → recursive self = true →
    path ∈ opened s → P (add_visited path s).
Hypothesis P_store :
  ∀ s path m (dl : gset string),
    P s → files E !! path = Some (Parsed m) →
    P (store E (key_factory E self path)
         (merge_sort String.le (elements dl)) s).

Lemma invariant_load fuel name :
  spec P True (load_deprecated_from_module E fuel self name).
Proof.
  revert name. induction fuel as [|fuel IH]; intros name s Hs; [done|].
  simpl.
  destruct (resolve_module E name (file_path self)) as [path|]; [|done].
  assert (match analyse_module E (load_deprecated_from_module E fuel self)
                  self path (key_factory E self path) s with
          | Return _ s' => P s'
          | _ => True
          end) as Han.
  { unfold analyse_module.
    destruct (files E !! path) as [[| |m]|] eqn:Hfile; try done.
    - by eapply P_open.
    - assert (P (log_open path s)) as Hopened by (by eapply P_open).
      unfold bind at 1.
      assert (match deprecated_imports_of
                      (load_deprecated_from_module E fuel self) self path m
                      (log_open path s) with
              | Return _ s' => P s'
              | _ => True
              end) as Hdi.
      { unfold deprecated_imports_of.
        destruct (recursive self) eqn:Hrec; simpl; [|done].
        case_bool_decide as Hnew; simpl; [|done].
        refine (spec_bind _ True _ _ _ _ (add_visited path (log_open path s))
                  _).
        - apply spec_visit_Module. intros name'. apply IH.
        - intros D. apply spec_ret.
        - eapply P_visit; [done..|]. simpl. apply elem_of_app. right. left. }
      destruct (deprecated_imports_of _ _ _ _ _) as [di s1| |]; [|done..].
      refine (spec_bind _ True _ _ _ _ s1 Hdi); [apply spec_lift|].
      intros D. apply spec_bind; [apply spec_lift|]. intros dl s2 Hs2.
      by eapply P_store. }
  destruct (cache s !! key_factory E self path) as [data|] eqn:Hlook;
    [|exact Han].
  repeat case_decide; [done| |exact Han].
  by eapply P_warn.
Qed.
End RunInvariant.

Lemma invariant_memestra (E : collaborators) (P : session → Prop)
    (fuel : nat) (persisted : gmap cache_key entry) (fd : file_descriptor)
    (decorator : list string) (file_path : option string) (recursive : bool)
    (out : list finding) (s : session) :
  (∀ name,
     spec P True
       (load_deprecated_from_module E fuel
          {| decorator := decorator; file_path := file_path;
             recursive := recursive |} name)) →
  P {| cache := persisted; visited := ∅; warnings := []; opened := [] |} →
  memestra E fuel persisted fd decorator file_path recursive = Return out s →
  P s.
Proof.
  intros Hload H0. unfold memestra. case_decide; [|done].
  destruct (fd_read fd) as [| |m]; try done.
  set (resolver := {| decorator := decorator |}) in *.
  pose proof (spec_visit_Module P True _ m Hload resolver _ H0) as Hv.
  unfold bind. destruct (visit_Module _ m resolver _) as [D s1| |]; [|done..].
  by intros [= _ <-].
Qed.

(** X9.  A run never removes or changes a cache entry that it trusts or
    that is hand-written: every entry of the store whose version is
    current or whose generator is ["manual"] is in the cache, unchanged,
    when [memestra] returns. *)
Theorem trusted_entries_survive (E : collaborators) (fuel : nat)
    (persisted : gmap cache_key entry) (fd : file_descriptor)
    (decorator : list string) (file_path : option string) (recursive : bool)
    (out : list finding) (s : session) :
  memestra E fuel persisted fd decorator file_path recursive = Return out s →
  ∀ key data,
    persisted !! key = Some data →
    version data = Format_version E ∨ generator data = "manual" →
    cache s !! key = Some data.
Proof.
  intros Hrun key data Hkey Hsticky.
  set (resolver := {| decorator := decorator; file_path := file_path;
                      recursive := recursive |}).
  apply (invariant_memestra E
           (λ s, cache_grows E resolver persisted (cache s)))
    in Hrun as [Hkeep _].
  - by apply Hkeep.
  - intros name. apply steps_load.
  - apply cache_grows_refl.
Qed.

(** X10.  Every cache entry that a run adds or replaces is an entry of the
    tool for a module that parsed: it is stored under the key of that
    module, with the current format version, generator ["memestra"] and a
    sorted list of names without duplicates. *)
Theorem cache_writes_are_tool_entries (E : collaborators) (fuel : nat)
    (persisted : gmap cache_key entry) (fd : file_descriptor)
    (decorator : list string) (file_path : option string) (recursive : bool)
    (out : list finding) (s : session) :
  memestra E fuel persisted fd decorator file_path recursive = Return out s →
  ∀ key data,
    cache s !! key = Some data →
    persisted !! key = Some data ∨
    (tool_entry E data ∧
     ∃ path m,
       files E !! path = Some (Parsed m) ∧
       key = (if recursive then RecursiveCacheKeyFactory E
              else CacheKeyFactory E) path).
Proof.
  set (resolver := {| decorator := decorator; file_path := file_path;
                      recursive := recursive |}).
  apply (invariant_memestra E
           (λ s, ∀ key data,
              cache s !! key = Some data →
              persisted !! key = Some data ∨
              (tool_entry E data ∧
               ∃ path m,
                 files E !! path = Some (Parsed m) ∧
                 key = key_factory E resolver path))).
  - intros name. apply invariant_load; try done.
    intros s1 path m dl Hs1 Hfile key data. simpl. unfold cache_put.
    destruct (decide (key_factory E resolver path = key)) as [<-|Hne].
    + rewrite lookup_insert_eq. intros [= <-]. right. split.
      * repeat split; simpl.
        -- apply StronglySorted_merge_sort; apply _.
        -- rewrite merge_sort_Permutation. apply NoDup_elements.
      * by exists path, m.
    + rewrite lookup_insert_ne by done. apply Hs1.
  - intros key data Hkey. by left.
Qed.


(** X12.  The Visited Set and the opened files of a run: a non-recursive
    run leaves the Visited Set empty; every path a recursive run puts in it
    is a module that parsed and that was opened; and every file opened is a
    file that exists. *)
Theorem visited_set_bookkeeping (E : collaborators) (fuel : nat)
    (persisted : gmap cache_key entry) (fd : file_descriptor)
    (decorator : list string) (file_path : option string) (recursive : bool)
    (out : list finding) (s : session) :
  memestra E fuel persisted fd decorator file_path recursive = Return out s →
  (recursive = false → visited s = ∅) ∧
  (∀ p, p ∈ visited s →
     (∃ m, files E !! p = Some (Parsed m)) ∧ p ∈ opened s) ∧
  (∀ p, p ∈ opened s → is_Some (files E !! p)).
Proof.
  set (resolver := {| decorator := decorator; file_path := file_path;
                      recursive := recursive |}).
  apply (invariant_memestra E
           (λ s, (recursive = false → visited s = ∅) ∧
                 (∀ p, p ∈ visited s →
                    (∃ m, files E !! p = Some (Parsed m)) ∧ p ∈ opened s) ∧
                 (∀ p, p ∈ opened s → is_Some (files E !! p)))).
  - intros name. apply (invariant_load E resolver); try done.
    + intros s1 path src (Hnon & Hvis & Hop) Hfile. split; [done|]. split.
      * intros p Hp. destruct (Hvis p Hp) as [Hm Ho]. split; [done|].
        simpl. apply elem_of_app. by left.
      * simpl. intros p [Hp| ->%list_elem_of_singleton]%elem_of_app;
          [by apply Hop|by rewrite Hfile].
    + intros s1 path m (Hnon & Hvis & Hop) Hfile Hrec Hopened. simpl in Hrec.
      split; [by rewrite Hrec|]. split; [|done]. simpl.
      intros p [->%elem_of_singleton|Hp]%elem_of_union;
        [|by apply Hvis]. split; [by exists m|done].
  - split; [done|]. split; simpl; intros p Hp.
    + by apply not_elem_of_empty in Hp.
    + by apply elem_of_nil in Hp.
Qed.


(** ** The decorator argument *)

Lemma split_dot_nonempty s : split_dot s ≠ [].
Proof.
  destruct s as [|c s]; simpl; [done|].
  destruct (Ascii.eqb c "."); [done|]. by destruct (split_dot s).
Qed.

Lemma split_dot_dotless s : dotless s = true → split_dot s = [s].
Proof.
  induction s as [|c s IH]; simpl; [done|].
  destruct (Ascii.eqb c "."); simpl; [done|].
  intros Hs. by rewrite (IH Hs).
Qed.

Lemma split_dot_cons_dot M N :
  dotless N = true → split_dot (M +:+ String "." N) = split_dot M ++ [N].
Proof.
  intros HN. induction M as [|c M IH]; simpl.
  - by rewrite (split_dot_dotless N HN).
  - change (String.append M (String "." N)) with (M +:+ String "." N).
    rewrite IH. destruct (Ascii.eqb c "."); [done|].
    pose proof (split_dot_nonempty M). by destruct (split_dot M).
Qed.

Lemma split_dot_snoc M N :
  dotless N = true → split_dot (M +:+ "." +:+ N) = split_dot M ++ [N].
Proof. intros HN. by apply split_dot_cons_dot. Qed.

Lemma join_split_dot s : join_dot (split_dot s) = s.
Proof.
  induction s as [|c s IH]; simpl; [done|].
  pose proof (split_dot_nonempty s) as Hne.
  destruct (Ascii.eqb c ".") eqn:Hc.
  - apply Ascii.eqb_eq in Hc as ->.
    destruct (split_dot s) as [|w ws]; [done|]. simpl in *. by rewrite IH.
  - destruct (split_dot s) as [|w ws]; [done|].
    destruct ws as [|w' ws]; simpl in *; by rewrite <- IH.
Qed.

(** X14.  The decorator path that [run] builds from [--decorator M.N],
    where [N] has no dot, passes the assertion of [memestra], and the
    matcher's tests on it are those of [from M import N]: its last slice
    is the path of the name [N], and joining the rest gives back [M].
    Joining the whole path gives back the argument. *)
Theorem decorator_argument_round_trip (M N : string) :
  dotless N = true →
  let decorator := split_dot (M +:+ "." +:+ N) in
  1 < length decorator ∧
  last_slice decorator = split_dot N ∧
  join_dot (but_last_slice decorator) = M ∧
  join_dot decorator = M +:+ "." +:+ N.
Proof.
  intros HN decorator. unfold decorator, last_slice, but_last_slice.
  rewrite (split_dot_snoc M N HN), length_app. simpl.
  pose proof (split_dot_nonempty M) as Hne.
  replace (length (split_dot M) + 1 - 1) with (length (split_dot M)) by lia.
  repeat split.
  - destruct (split_dot M); [done|simpl; lia].
  - by rewrite drop_app_length, (split_dot_dotless N HN).
  - by rewrite take_app_length, join_split_dot.
  - rewrite <- (split_dot_snoc M N HN). apply join_split_dot.
Qed.

(** X15.  Given a decorator argument without a dot, [run] fails in the
    assertion of [memestra] before the input is parsed, whatever the
    input, unless a plugin has registered an analyser for the extension
    of the input. *)
Theorem run_rejects_dotless_decorator (E : collaborators) (fuel : nat)
    (persisted : gmap cache_key entry)
    (splitext : string → string * string) (plugins : gmap string analyser)
    (args : arguments) :
  dotless (arg_decorator args) = true →
  plugins !! (splitext (arg_input_name args)).2 = None →
  run E fuel persisted splitext plugins args = Raise AssertionError.
Proof.
  intros Hdot Hplugin. unfold run. rewrite Hplugin. simpl.
  unfold memestra. rewrite (split_dot_dotless _ Hdot).
  case_decide as Hlen; [simpl in Hlen; lia|done].
Qed.

(** ** What a visit adds *)

Section VisitAdds.
Variable load : option string → session → outcome (option (gset string)).
Variable m : module_ast.

(** [p] comes from the import statement [n]: it is an attribute access
    directly above a use of an alias of [import], or a use of an alias of
    [from ... import]. *)
Lemma visit_node_adds n deprecated s deprecated' s' :
  visit_node load m n deprecated s = Return deprecated' s' →
  deprecated ⊆ deprecated' ∧
  ∀ p, p ∈ deprecated' → p ∈ deprecated ∨
    match kind m n with
    | Import names =>
        ∃ a u v attr, a ∈ names ∧ u ∈ users m a ∧
                      last (parents m u) = Some p ∧
                      kind m p = Attribute v attr
    | ImportFrom _ names => ∃ a, a ∈ names ∧ p ∈ users m a
    | _ => False
    end.
Proof.
  unfold visit_node.
  destruct (kind m n) as [| | | | | | |names|module names|];
    try (intros [= <- <-]; split; [done|by left]).
  - unfold visit_Import. revert deprecated s.
    induction names as [|a names IH]; intros deprecated s; simpl.
    + intros [= <- <-]. split; [done|by left].
    + unfold bind at 1, visit_Import_alias at 1, bind, lift.
      destruct (name_of (kind m a)) as [name|]; [|done].
      destruct (load (Some name) s) as [[found|] s1| |]; [| |done..].
      * destruct (rfor_each _ _ _) as [d1|] eqn:Hloop; [|done].
        pose proof (visit_Import_users_exact m _ _ _ _ Hloop) as Hex.
        intros Hrest. apply IH in Hrest as [Hsub Hprov]. split.
        -- intros p Hp. apply Hsub, Hex. by left.
        -- intros p Hp.
           destruct (Hprov p Hp) as [Hd|(b & u & v & at' & Hb & H)].
           ++ apply Hex in Hd as [?|(u & v & at' & Hu & Hl & Hk & _)];
                [by left|right].
              exists a, u, v, at'. split; [left|done].
           ++ right. exists b, u, v, at'. split; [by right|done].
      * intros Hrest. apply IH in Hrest as [Hsub Hprov]. split; [done|].
        intros p Hp. destruct (Hprov p Hp) as [?|(b & u & v & at' & Hb & H)];
          [by left|right].
        exists b, u, v, at'. split; [by right|done].
  - unfold visit_ImportFrom, bind, lift.
    destruct (load module s) as [[found|] s1| |]; [| |done..].
    + destruct (rmap _ names) as [aliases|]; [|done].
      destruct (rfor_each _ _ _) as [d1|] eqn:Hloop; [|done].
      intros [= <- <-].
      pose proof (visit_ImportFrom_names_exact m _ _ _ _ _ Hloop) as Hex.
      split.
      * intros p Hp. apply Hex. by left.
      * intros p [?|(name & i & a & _ & _ & Ha & Hp)]%Hex; [by left|right].
        exists a. split; [by eapply list_elem_of_lookup_2|done].
    + intros [= <- <-]. split; [done|by left].
Qed.
End VisitAdds.

(** X17.  Visiting a module only adds to the Deprecated Set that the
    decorator matcher found: every definition the matcher marks stays in
    the set, and every other node of the set comes from an import
    statement of the module, as an attribute access directly above a use
    of an [import] alias or as a use of a [from ... import] alias. *)
Theorem visit_Module_adds
    (load : option string → session → outcome (option (gset string)))
    (m : module_ast) (self : ImportResolver) (s s' : session)
    (D : gset node) :
  visit_Module load m self s = Return D s' →
  ∃ D0,
    collect_deprecated (decorator self) m = Ok D0 ∧ D0 ⊆ D ∧
    ∀ p, p ∈ D → p ∈ D0 ∨
      ∃ n, n ∈ preorder m ∧
        match kind m n with
        | Import names =>
            ∃ a u v attr, a ∈ names ∧ u ∈ users m a ∧
                          last (parents m u) = Some p ∧
                          kind m p = Attribute v attr
        | ImportFrom _ names => ∃ a, a ∈ names ∧ p ∈ users m a
        | _ => False
        end.
Proof.
  unfold visit_Module, bind at 1, lift.
  destruct (collect_deprecated (decorator self) m) as [D0|]; [|done].
  intros Hrun. exists D0. split; [done|].
  revert Hrun. generalize (preorder m) as l, D0 as acc, s as s0.
  induction l as [|n l IH]; intros acc s0; simpl.
  - intros [= <- <-]. split; [done|by left].
  - unfold bind at 1.
    destruct (visit_node load m n acc s0) as [acc' s1| |] eqn:Hn; [|done..].
    apply visit_node_adds in Hn as [Hsub Hprov].
    intros Hrest. apply IH in Hrest as [Hsub' Hprov']. split; [by trans acc'|].
    intros p Hp. destruct (Hprov' p Hp) as [Hacc|(n' & Hn' & H)].
    + destruct (Hprov p Hacc) as [?|H]; [by left|right].
      exists n. split; [left|done].
    + right. exists n'. split; [by right|done].
Qed.

(** ** Display names and the names of an imported module *)

Lemma append_assoc (x y z : string) : (x +:+ y) +:+ z = x +:+ y +:+ z.
Proof.
  induction x as [|c x IH]; [done|].
  change (String c ((x +:+ y) +:+ z) = String c (x +:+ y +:+ z)).
  by rewrite IH.
Qed.

Lemma join_dot_snoc segs attr :
  segs ≠ [] → join_dot (segs ++ [attr]) = join_dot segs +:+ "." +:+ attr.
Proof.
  induction segs as [|x segs IH]; [done|]. intros _.
  destruct segs as [|y segs]; [reflexivity|].
  change (join_dot ((x :: y :: segs) ++ [attr]))
    with (x +:+ "." +:+ join_dot ((y :: segs) ++ [attr])).
  rewrite IH by done.
  change (join_dot (x :: y :: segs)) with (x +:+ "." +:+ join_dot (y :: segs)).
  by rewrite !append_assoc.
Qed.

Lemma dotted_nonempty m n segs : dotted m n segs → segs ≠ [].
Proof. induction 1; [done|]. by destruct segs. Qed.

(** X18.  The display name of a name or of a chain of attribute accesses
    on a name is its dotted path, [x.a1. ... .ak]; [repr] is not used for
    it.  The chain being made of nodes of the tree, it is no longer than
    the tree has nodes. *)
Theorem prettyname_dotted (E : collaborators) (m : module_ast) (n : node)
    (segs : list string) :
  dotted m n segs →
  (length segs ≤ S (length (preorder m)))%nat →
  prettyname E m n = join_dot segs.
Proof.
  unfold prettyname. generalize (length (preorder m)) as depth.
  intros depth Hd. revert depth.
  induction Hd as [n id Hk|n value attr segs Hk Hd IH]; intros depth Hlen.
  - destruct depth; simpl; by rewrite Hk.
  - rewrite length_app in Hlen. simpl in Hlen.
    pose proof (dotted_nonempty _ _ _ Hd) as Hne.
    destruct depth as [|depth].
    { destruct segs; [done|simpl in Hlen; lia]. }
    simpl. rewrite Hk, IH by lia. by rewrite join_dot_snoc.
Qed.



Lemma rmap_Ok_elem {A B} (f : A → result B) (l : list A) (ys : list B) :
  rmap f l = Ok ys → ∀ y, y ∈ ys ↔ ∃ x, x ∈ l ∧ f x = Ok y.
Proof.
  revert ys. induction l as [|x l IH]; intros ys; simpl.
  - intros [= <-] y. split; [by intros ?%elem_of_nil|].
    by intros (? & ?%elem_of_nil & _).
  - destruct (f x) as [b|] eqn:Hx; simpl; [|done].
    destruct (rmap f l) as [ys'|]; simpl; [|done].
    intros [= <-] y. rewrite elem_of_cons, (IH ys' eq_refl y). split.
    + intros [->|(x' & Hx' & Hy)].
      * exists x. split; [left|done].
      * exists x'. split; [by right|done].
    + intros (x' & [->|Hx']%elem_of_cons & Hy).
      * left. congruence.
      * right. by exists x'.
Qed.

Lemma names_of_exact (m : module_ast) (X : gset node) (dl : gset string) :
  names_of m X = Ok dl →
  ∀ name, name ∈ dl ↔ ∃ p, p ∈ X ∧ name_of (kind m p) = Ok name.
Proof.
  unfold names_of.
  destruct (rmap _ (elements X)) as [l|] eqn:Hl; simpl; [|done].
  intros [= <-] name.
  rewrite elem_of_list_to_set, (rmap_Ok_elem _ _ _ Hl name).
  by setoid_rewrite elem_of_elements.
Qed.

(** X20.  The names a recursive analysis returns for an imported module
    are exactly the names of the definitions the decorator marks in it and
    the names of the enclosing-contexts of the uses of deprecated nodes in
    it: a function that uses a deprecated name is itself reported as
    deprecated to the importing module. *)
Theorem recursive_names_exact (E : collaborators) (fuel : nat)
    (self : ImportResolver) (name : option string) (s : session)
    (path : string) (m : module_ast) (found : gset node) (s1 : session)
    (D : gset node) (r : option (gset string)) (s' : session) :
  recursive self = true →
  resolve_module E name (file_path self) = Some path →
  untrusted E (cache s !! key_factory E self path) →
  files E !! path = Some (Parsed m) →
  path ∉ visited s →
  visit_Module (load_deprecated_from_module E fuel self) m self
    (add_visited path (log_open path s)) = Return found s1 →
  collect_deprecated (decorator self) m = Ok D →
  load_deprecated_from_module E (S fuel) self name s = Return r s' →
  ∃ dl,
    r = Some dl ∧
    ∀ deprecated_name,
      deprecated_name ∈ dl ↔
      (∃ p, p ∈ D ∧ name_of (kind m p) = Ok deprecated_name) ∨
      (∃ deprecated_node user context,
         (deprecated_node, user, context) ∈ get_deprecated_users m found ∧
         name_of (kind m context) = Ok deprecated_name).
Proof.
  intros Hrec Hres Hun Hfile Hnew Hvisit Hcol.
  rewrite (load_miss E fuel self name s path) by done.
  unfold analyse_module. rewrite Hfile.
  unfold bind at 1, deprecated_imports_of. rewrite Hrec. simpl.
  rewrite bool_decide_eq_true_2 by done. simpl.
  unfold bind at 1. rewrite Hvisit. unfold ret, bind, lift.
  rewrite Hcol.
  destruct (names_of m _) as [dl|] eqn:Hdl; [|done].
  intros [= <- <-]. exists dl. split; [done|]. intros nm.
  rewrite (names_of_exact _ _ _ Hdl nm). split.
  - intros (p & [Hp|Hp]%elem_of_union & Hnm); [left; by exists p|right].
    apply elem_of_list_to_set, list_elem_of_fmap in Hp
      as ([[d u] c] & -> & Hin).
    by exists d, u, c.
  - intros [(p & Hp & Hnm)|(d & u & c & Hin & Hnm)].
    + exists p. split; [by apply elem_of_union_l|done].
    + exists c. split; [|done].
      apply elem_of_union_r, elem_of_list_to_set, list_elem_of_fmap.
      by exists (d, u, c).
Qed.

(** ** The further statements at concrete programs *)

Section MoreConcrete.
Import Examples MoreExamples.
Open Scope positive_scope.
Open Scope list_scope.

(** The Deprecated Set of [a.py] is [{h}]. *)
Lemma collect_deprecated_exact_witness :
  collect_deprecated d_dep mod_a = Ok {[4]} ∧
  ∀ p, p ∈ ({[4]} : gset node) ↔
       ∃ dlocal user,
         dlocal ∈ locals mod_a ∧ contributes d_dep mod_a dlocal user p.
Proof.
  split; [vm_compute; reflexivity|].
  apply (collect_deprecated_exact d_dep mod_a {[4]}).
  vm_compute. reflexivity.
Defined.

(** The ancestors in [a.py] start at the module. *)
Lemma collect_deprecated_total_witness :
  ∃ D, collect_deprecated d_dep mod_a = Ok D.
Proof.
  apply (collect_deprecated_total d_dep mod_a).
  intros dlocal name Hin Hk.
  apply list_elem_of_In in Hin. vm_compute in Hin.
  destruct Hin as [<-|[<-|[]]]; [|discriminate Hk].
  split; [reflexivity|].
  intros user Hu. apply list_elem_of_In in Hu. vm_compute in Hu.
  destruct Hu as [<-|[]]. reflexivity.
Defined.

(** Final-segment mode on [from d import dep]. *)
Lemma final_segment_matching_witness :
  ∃ target,
    final_target (mod_from "d" "dep") 5 = Ok target ∧
    (∀ p, target = Some p ↔
       last (parents (mod_from "d" "dep") 5) = Some p ∧
       is_defs (kind (mod_from "d" "dep") p) = true) ∧
    (∀ p, target = Some p → p ∈ ({[4]} : gset node)).
Proof.
  apply (final_segment_matching d_dep (mod_from "d" "dep") {[4]} 3 "dep" 2
           [3] 5).
  - vm_compute. reflexivity.
  - apply list_elem_of_In. vm_compute. auto.
  - reflexivity.
  - discriminate.
  - reflexivity.
  - reflexivity.
  - reflexivity.
  - apply list_elem_of_In. vm_compute. auto.
Defined.

(** The triple of the call of [f] at module level in [mod_nested]. *)
Lemma deprecated_users_sound_witness :
  4 ∈ ({[4; 7]} : gset node) ∧ 15 ∈ users mod_nested 4 ∧
  (∀ f, f ∈ parents mod_nested 15 →
     is_defs (kind mod_nested f) = true → f ∉ ({[4; 7]} : gset node)) ∧
  (∀ f, last (filter (λ n, is_defs (kind mod_nested n))
                (parents mod_nested 15)) = Some f →
     15 = f ∧ f ∉ ({[4; 7]} : gset node)) ∧
  (filter (λ n, is_defs (kind mod_nested n)) (parents mod_nested 15) = [] →
   15 = 15).
Proof.
  apply (deprecated_users_sound mod_nested {[4; 7]} 4 15 15).
  apply list_elem_of_In. vm_compute. auto.
Defined.

(** Iterating [{f, g}] of [mod_nested] in the other order. *)
Lemma output_independent_of_set_order_witness :
  merge_sort finding_le
    (format_use world (fd_of "n.py" mod_nested) mod_nested <$>
       flat_map (λ deprecated_node,
                   flat_map (deprecated_use mod_nested {[4; 7]}
                               deprecated_node)
                            (users mod_nested deprecated_node)) [7; 4])
  = merge_sort finding_le
      (format_use world (fd_of "n.py" mod_nested) mod_nested <$>
         get_deprecated_users mod_nested {[4; 7]}).
Proof.
  apply (output_independent_of_set_order world (fd_of "n.py" mod_nested)
           mod_nested {[4; 7]} [7; 4]).
  apply (bool_decide_unpack _). vm_compute. exact I.
Defined.

(** [import a] and [a.h()] in [mod_attr]. *)
Lemma visit_Import_alias_exact_witness :
  ∃ deprecated',
    visit_Import_alias (load_deprecated_from_module world 1 (resolver_of false))
      mod_attr 3 ∅ (session_of ∅)
    = Return deprecated'
        (session_after
           (load_deprecated_from_module world 1 (resolver_of false)
              (Some "a") (session_of ∅))) ∧
    ∀ p, p ∈ deprecated' ↔
         p ∈ (∅ : gset node) ∨
         ∃ u v attr, u ∈ users mod_attr 3 ∧
                     last (parents mod_attr u) = Some p ∧
                     kind mod_attr p = Attribute v attr ∧
                     attr ∈ ({["h"]} : gset string).
Proof.
  apply (visit_Import_alias_exact _ mod_attr 3 "a" ∅ (session_of ∅)).
  - reflexivity.
  - vm_compute. reflexivity.
  - intros u Hu. apply list_elem_of_In in Hu. vm_compute in Hu.
    destruct Hu as [<-|[]]. discriminate.
Defined.

(** [from a import h] in [b.py]. *)
Lemma visit_ImportFrom_exact_witness :
  ∃ deprecated',
    visit_ImportFrom (load_deprecated_from_module world 1 (resolver_of false))
      mod_b (Some "a") [3] ∅ (session_of ∅)
    = Return deprecated'
        (session_after
           (load_deprecated_from_module world 1 (resolver_of false)
              (Some "a") (session_of ∅))) ∧
    ∀ p, p ∈ deprecated' ↔
         p ∈ (∅ : gset node) ∨
         ∃ name index a,
           name ∈ ({["h"]} : gset string) ∧
           index_of name ["h"] = Some index ∧
           [3] !! index = Some a ∧ p ∈ users mod_b a.
Proof.
  apply (visit_ImportFrom_exact _ mod_b (Some "a") [3] ["h"] ∅
           (session_of ∅)).
  - vm_compute. reflexivity.
  - reflexivity.
Defined.

(** [import d], where [d] is not found. *)
Lemma unresolvable_import_is_skipped_witness :
  visit_node (load_deprecated_from_module world 1 (resolver_of true))
    (mod_import "d") 2 ∅ (session_of ∅)
  = Return ∅ (session_of ∅).
Proof.
  apply (unresolvable_import_is_skipped world 0 (resolver_of true)
           (mod_import "d") 2 ∅ (session_of ∅)).
  simpl. intros a Ha. apply list_elem_of_In in Ha. vm_compute in Ha.
  destruct Ha as [<-|[]]. exists "d". split; reflexivity.
Defined.

(** The scan of [mod_plain]. *)
Lemma scan_without_imports_witness :
  memestra world 0 old_store (fd_of "p.py" mod_plain) d_dep None true
  = Return
      (merge_sort finding_le
         (format_use world (fd_of "p.py" mod_plain) mod_plain <$>
            get_deprecated_users mod_plain ∅))
      {| cache := old_store; visited := ∅; warnings := []; opened := [] |}.
Proof.
  apply (scan_without_imports world 0 old_store (fd_of "p.py" mod_plain)
           mod_plain d_dep None true ∅).
  - vm_compute. lia.
  - reflexivity.
  - intros n Hn. apply list_elem_of_In in Hn. vm_compute in Hn.
    repeat (destruct Hn as [<-|Hn]; [exact I|]). destruct Hn.
  - vm_compute. reflexivity.
Defined.

(** The scan of [b.py] against [old_store] keeps the entry of [a.py]. *)
Lemma trusted_entries_survive_witness :
  cache (session_after
           (memestra world 1 old_store (fd_of "b.py" mod_b) d_dep None false))
    !! ("a.py", "direct")
  = Some {| version := 1; generator := "manual";
            deprecated := ["h"; "k"] |}.
Proof.
  apply (trusted_entries_survive world 1 old_store (fd_of "b.py" mod_b)
           d_dep None false [("h", "b.py", 2%Z, 0%Z)]).
  - vm_compute. reflexivity.
  - vm_compute. reflexivity.
  - left. reflexivity.
Defined.

(** The scan of [b.py] against an empty store. *)
Lemma cache_writes_are_tool_entries_witness :
  memestra world 1 ∅ (fd_of "b.py" mod_b) d_dep None false
  = Return [("h", "b.py", 2%Z, 0%Z)]
      (session_after
         (memestra world 1 ∅ (fd_of "b.py" mod_b) d_dep None false)) ∧
  ∀ key data,
    cache (session_after
             (memestra world 1 ∅ (fd_of "b.py" mod_b) d_dep None false))
      !! key = Some data →
    (∅ : gmap cache_key entry) !! key = Some data ∨
    (tool_entry world data ∧
     ∃ path m,
       files world !! path = Some (Parsed m) ∧
       key = CacheKeyFactory world path).
Proof.
  split; [vm_compute; reflexivity|].
  apply (cache_writes_are_tool_entries world 1 ∅ (fd_of "b.py" mod_b)
           d_dep None false [("h", "b.py", 2%Z, 0%Z)]).
  vm_compute. reflexivity.
Defined.


(** The recursive scan of [ca.py]. *)
Lemma visited_set_bookkeeping_witness :
  (true = false →
   visited (session_after
              (memestra world 6 ∅ (fd_of "ca.py" (mod_import "cb")) d_dep
                 None true)) = ∅) ∧
  (∀ p,
     p ∈ visited (session_after
                    (memestra world 6 ∅ (fd_of "ca.py" (mod_import "cb"))
                       d_dep None true)) →
     (∃ m, files world !! p = Some (Parsed m)) ∧
     p ∈ opened (session_after
                   (memestra world 6 ∅ (fd_of "ca.py" (mod_import "cb"))
                      d_dep None true))) ∧
  (∀ p,
     p ∈ opened (session_after
                   (memestra world 6 ∅ (fd_of "ca.py" (mod_import "cb"))
                      d_dep None true)) →
     is_Some (files world !! p)).
Proof.
  apply (visited_set_bookkeeping world 6 ∅ (fd_of "ca.py" (mod_import "cb"))
           d_dep None true []).
  vm_compute. reflexivity.
Defined.


(** The argument [--decorator pkg.mod.dep]. *)
Lemma decorator_argument_round_trip_witness :
  (1 < length (split_dot ("pkg.mod" +:+ "." +:+ "dep")))%nat ∧
  last_slice (split_dot ("pkg.mod" +:+ "." +:+ "dep")) = split_dot "dep" ∧
  join_dot (but_last_slice (split_dot ("pkg.mod" +:+ "." +:+ "dep")))
  = "pkg.mod" ∧
  join_dot (split_dot ("pkg.mod" +:+ "." +:+ "dep"))
  = "pkg.mod" +:+ "." +:+ "dep".
Proof.
  apply (decorator_argument_round_trip "pkg.mod" "dep"). reflexivity.
Defined.

(** [memestra --decorator deprecated b.py] *)
Lemma run_rejects_dotless_decorator_witness :
  run world 1 ∅ splitext_py ∅
    {| arg_decorator := "deprecated"; arg_recursive := false;
       arg_input_name := "b.py"; arg_input := Parsed mod_b |}
  = Raise AssertionError.
Proof.
  apply (run_rejects_dotless_decorator world 1 ∅ splitext_py ∅);
    reflexivity.
Defined.

(** The visit of [b.py]. *)
Lemma visit_Module_adds_witness :
  ∃ D0,
    collect_deprecated (decorator (resolver_of false)) mod_b = Ok D0 ∧
    D0 ⊆ ({[6]} : gset node) ∧
    ∀ p, p ∈ ({[6]} : gset node) → p ∈ D0 ∨
      ∃ n, n ∈ preorder mod_b ∧
        match kind mod_b n with
        | Import names =>
            ∃ a u v attr, a ∈ names ∧ u ∈ users mod_b a ∧
                          last (parents mod_b u) = Some p ∧
                          kind mod_b p = Attribute v attr
        | ImportFrom _ names => ∃ a, a ∈ names ∧ p ∈ users mod_b a
        | _ => False
        end.
Proof.
  apply (visit_Module_adds
           (load_deprecated_from_module world 1 (resolver_of false)) mod_b
           (resolver_of false) (session_of ∅)
           (session_after
              (load_deprecated_from_module world 1 (resolver_of false)
                 (Some "a") (session_of ∅)))).
  vm_compute. reflexivity.
Defined.

(** The display name of [a.h] in [mod_attr]. *)
Lemma prettyname_dotted_witness :
  prettyname world mod_attr 6 = join_dot (["a"] ++ ["h"]).
Proof.
  apply (prettyname_dotted world mod_attr 6 (["a"] ++ ["h"])).
  - apply (dotted_Attribute mod_attr 6 7 "h" ["a"]); [reflexivity|].
    apply dotted_Name. reflexivity.
  - vm_compute. lia.
Defined.


(** The recursive load of [lib.py] returns [h] and [k]. *)
Lemma recursive_names_exact_witness :
  ∃ dl,
    Some ({["h"; "k"]} : gset string) = Some dl ∧
    ∀ deprecated_name,
      deprecated_name ∈ dl ↔
      (∃ p, p ∈ ({[4]} : gset node) ∧
            name_of (kind mod_lib p) = Ok deprecated_name) ∨
      (∃ deprecated_node user context,
         (deprecated_node, user, context)
         ∈ get_deprecated_users mod_lib {[4]} ∧
         name_of (kind mod_lib context) = Ok deprecated_name).
Proof.
  apply (recursive_names_exact lib_world 1
           {| decorator := d_dep; file_path := None; recursive := true |}
           (Some "lib") (session_of ∅) "lib.py" mod_lib {[4]}
           (add_visited "lib.py" (log_open "lib.py" (session_of ∅)))
           {[4]} (Some {["h"; "k"]})
           (session_after
              (load_deprecated_from_module lib_world 2
                 {| decorator := d_dep; file_path := None;
                    recursive := true |}
                 (Some "lib") (session_of ∅)))).
  - reflexivity.
  - reflexivity.
  - apply untrusted_None.
  - reflexivity.
  - intros Hin. by apply not_elem_of_empty in Hin.
  - vm_compute. reflexivity.
  - vm_compute. reflexivity.
  - vm_compute. reflexivity.
Defined.
End MoreConcrete.
